(** * Rufus: instruction-guided crawler — relevance pipeline and crawl engine

  Shallow embedding of [rufus/utils.py] ([extract_keywords],
  [compute_similarity]) and of [rufus/client.py] ([RufusClient.__init__],
  [_authenticate], [scrape], [run], [_crawl], [_render_page]).

  The libraries the program calls (NLTK, sentence-transformers,
  scikit-learn, BeautifulSoup, [urllib.parse], [str.lower], [str.isalpha])
  are not part of the repository: they are the fields of the class
  [Libraries]; what Playwright does for a page is an argument of the step
  that resumes a render. A library call that can raise returns an
  [option], [None] standing for the raised exception. *)

From Stdlib Require Import ZArith QArith Ascii String.
From stdpp Require Import base gmap sets list strings sorting relations.

Local Open Scope string_scope.
Local Open Scope list_scope.
Local Open Scope Z_scope.

(** ** Python strings: the [in] operator *)

Module PyStr.

(** [sub in s] on two [str] values: [sub] occurs in [s] as a contiguous
    substring. *)
Fixpoint str_in (sub s : string) : bool :=
  String.prefix sub s ||
  match s with
  | EmptyString => false
  | String _ s' => str_in sub s'
  end.

(** The specification of [in]: some prefix [p] and suffix [q] surround
    the needle. *)
Definition occurs_in (sub s : string) : Prop :=
  ∃ p q : string, s = p +:+ sub +:+ q.

(** ASCII instance of [str.lower], used where a concrete run is needed. *)
Definition ascii_lower (c : ascii) : ascii :=
  let n := nat_of_ascii c in
  if (65 <=? n)%nat && (n <=? 90)%nat then ascii_of_nat (n + 32) else c.

Fixpoint lower (s : string) : string :=
  match s with
  | EmptyString => EmptyString
  | String c s' => String (ascii_lower c) (lower s')
  end.

(** ASCII instance of [str.isalpha]: non-empty and letters only. *)
Definition ascii_alpha (c : ascii) : bool :=
  let n := nat_of_ascii c in
  ((65 <=? n)%nat && (n <=? 90)%nat) || ((97 <=? n)%nat && (n <=? 122)%nat).

Fixpoint all_alpha (s : string) : bool :=
  match s with
  | EmptyString => true
  | String c s' => ascii_alpha c && all_alpha s'
  end.

Definition isalpha (s : string) : bool :=
  match s with
  | EmptyString => false
  | _ => all_alpha s
  end.

(** A whitespace tokenizer, the instance of [word_tokenize] used in the
    concrete runs (NLTK's tokenizer also splits punctuation off). *)
Fixpoint split_ws (cur : string) (s : string) : list string :=
  match s with
  | EmptyString => if String.eqb cur "" then [] else [cur]
  | String c s' =>
      if Ascii.eqb c " "%char
      then (if String.eqb cur "" then split_ws "" s' else cur :: split_ws "" s')
      else split_ws (cur +:+ String c EmptyString) s'
  end.

End PyStr.

(** ** collections.Counter *)

Module PyCounter.

(** A [Counter] is a [dict]: keys stay in the order of their first
    insertion, which the association list keeps. *)
Definition counter := list (string * nat).

(** [c[w] += 1], creating the key at the end when it is new. *)
Fixpoint incr (w : string) (c : counter) : counter :=
  match c with
  | [] => [(w, 1%nat)]
  | (w', n) :: c' =>
      if String.eqb w w' then (w', S n) :: c' else (w', n) :: incr w c'
  end.

(** [Counter(tokens)]: one increment per token, left to right. *)
Definition Counter (tokens : list string) : counter :=
  fold_left (fun c w => incr w c) tokens [].

(** [sorted(items, key=itemgetter(1), reverse=True)] is a stable sort:
    an item goes in front of the first item whose count is not larger. *)
Fixpoint place (x : string * nat) (l : counter) : counter :=
  match l with
  | [] => [x]
  | y :: l' => if (snd y <=? snd x)%nat then x :: y :: l' else y :: place x l'
  end.

Fixpoint sorted_desc (l : counter) : counter :=
  match l with
  | [] => []
  | x :: l' => place x (sorted_desc l')
  end.

(** [Counter.most_common(n)] for an [int] [n] is
    [heapq.nlargest(n, items, key=count)], that is
    [sorted(items, key=count, reverse=True)[:n]]; nothing for [n <= 0]. *)
Definition most_common (n : Z) (c : counter) : counter :=
  if n <=? 0 then [] else take (Z.to_nat n) (sorted_desc c).

End PyCounter.

(** ** The libraries behind the program *)

(** What the program asks of NLTK, sentence-transformers, scikit-learn,
    BeautifulSoup and [urllib.parse]. [score] is the type of similarity
    scores ([numpy.float32], [float]) with its comparison [>]. *)
Class Libraries := {
  score : Type;
  vec : Type;
  soup : Type;
  score_gt : score → score → bool;
  str_lower : string → string;
  str_isalpha : string → bool;
  (* nltk.tokenize.word_tokenize, stopwords.words('english'): both raise
     LookupError when the NLTK data is missing *)
  word_tokenize : string → option (list string);
  stopwords_english : option (list string);
  (* model.encode([a, b]) and cosine_similarity([u], [v])[0][0] *)
  model_encode : string → string → option (vec * vec);
  cosine_similarity : vec → vec → option score;
  (* BeautifulSoup(html, 'html.parser'), soup.get_text(separator=' ',
     strip=True), the href of each soup.find_all('a', href=True) *)
  html_parser : string → option soup;
  get_text : soup → string;
  find_all_a_href : soup → list string;
  (* urlparse(u).scheme and urljoin(base, u): ValueError on a malformed URL *)
  urlparse_scheme : string → option string;
  urljoin : string → string → option string
}.

(** Exceptions the program raises or lets through. *)
Inductive exn :=
| ValueError (msg : string)
| UnboundLocalError (name : string)
| LibraryError (origin : string).

(** ** rufus/utils.py *)

Section Utils.
Context `{Libraries}.

(** [word.isalpha() and word not in stop_words] *)
Definition keep_token (stop_words : list string) (word : string) : bool :=
  str_isalpha word && negb (bool_decide (word ∈ stop_words)).

Definition filtered_tokens (stop_words tokens : list string) : list string :=
  filter (λ word, keep_token stop_words word = true) tokens.

Definition extract_keywords (instructions : string) (num_keywords : Z)
  : list string :=
  match word_tokenize (str_lower instructions) with
  | None => []                               (* except Exception: return [] *)
  | Some tokens =>
      match stopwords_english with
      | None => []                           (* except Exception: return [] *)
      | Some stop_words =>
          let word_counts := PyCounter.Counter (filtered_tokens stop_words tokens) in
          let most_common := PyCounter.most_common num_keywords word_counts in
          most_common.*1
      end
  end.

(** Truth value of an [Optional[List[str]]]: [None] and [[]] are falsy. *)
Definition truthy (keywords : option (list string)) : bool :=
  match keywords with
  | None | Some [] => false
  | Some (_ :: _) => true
  end.

Definition keyword_list (keywords : option (list string)) : list string :=
  default [] keywords.

Definition compute_similarity (content instructions : string)
    (keywords : option (list string)) (threshold : score) : bool :=
  match model_encode instructions content with
  | None => false                            (* except Exception: return False *)
  | Some (e0, e1) =>
      match cosine_similarity e0 e1 with
      | None => false                        (* except Exception: return False *)
      | Some similarity =>
          let has_keywords :=
            if truthy keywords then
              let content_lower := str_lower content in
              existsb (λ keyword, PyStr.str_in (str_lower keyword) content_lower)
                      (keyword_list keywords)
            else true in
          score_gt similarity threshold && has_keywords
      end
  end.

(** The similarity the scorer computes, when both library calls succeed. *)
Definition similarity_of (content instructions : string) : option score :=
  match model_encode instructions content with
  | None => None
  | Some (e0, e1) => cosine_similarity e0 e1
  end.

End Utils.

(** ** rufus/client.py: the client object *)

Section Client.
Context `{Libraries}.

Record RufusClient := {
  api_key : string;
  instructions : string;
  keywords : option (list string);
  max_depth : Z;
  max_pages : Z;
  similarity_threshold : score
}.

(** [_authenticate]: the key is compared with [os.getenv('RUFUS_API_KEY')],
    which is [None] when the variable is unset. *)
Definition _authenticate (getenv_key : option string) (key : string) : bool :=
  bool_decide (getenv_key = Some key).

(** [RufusClient.__init__]. The only [raise] is the one for the API key. *)
Definition __init__ (getenv_key : option string)
    (key : string) (instr : string) (kws : option (list string))
    (depth pages : Z) (threshold : score) : exn + RufusClient :=
  let kws' := if truthy kws then kws else Some (extract_keywords instr 5) in
  if _authenticate getenv_key key
  then inr {| api_key := key; instructions := instr; keywords := kws';
              max_depth := depth; max_pages := pages;
              similarity_threshold := threshold |}
  else inl (ValueError "Invalid API Key.").

(** What Playwright does for one page: [browser.new_page()] and
    [set_extra_http_headers] (setup), then [goto], [wait_for_load_state] and
    [content] (load; [None] when one of them raises), then [page.close()]. *)
Record page_behaviour := {
  setup_raises : bool;
  load : option string;
  close_raises : bool
}.

(** [_render_page]: only the load sits in the [try]. *)
Definition _render_page (browser : bool) (pb : page_behaviour) : exn + string :=
  if negb browser then inr ""
  else if setup_raises pb then inl (LibraryError "playwright")
  else
    let html := match load pb with
                | Some html => html
                | None => ""                   (* except Exception: html = "" *)
                end in
    if close_raises pb then inl (LibraryError "playwright") else inr html.

(** [_extract_content]: both branches return the text, empty or not. *)
Definition _extract_content (html : string) : option string :=
  match html_parser html with
  | None => None
  | Some sp => let content := get_text sp in
               if bool_decide (content = "") then Some "" else Some content
  end.

Definition _is_valid_url (url : string) : option bool :=
  match urlparse_scheme url with
  | None => None
  | Some scheme => Some (bool_decide (scheme ∈ ["http"; "https"]))
  end.

(** The [for a_tag in ...] loop of [_extract_links]; [None] when
    [urlparse] or [urljoin] raises. *)
Fixpoint links_loop (current_url : string) (hrefs : list string)
    (links : gset string) : option (gset string) :=
  match hrefs with
  | [] => Some links
  | href :: rest =>
      match urlparse_scheme href with
      | None => None
      | Some scheme =>
          match (if bool_decide (scheme ∈ ["http"; "https"])
                 then Some href else urljoin current_url href) with
          | None => None
          | Some full_url =>
              match _is_valid_url full_url with
              | None => None
              | Some true => links_loop current_url rest ({[full_url]} ∪ links)
              | Some false => links_loop current_url rest links
              end
          end
      end
  end.

Definition _extract_links (html current_url : string) : exn + list string :=
  match html_parser html with
  | None => inl (LibraryError "bs4")
  | Some sp =>
      match links_loop current_url (find_all_a_href sp) ∅ with
      | None => inl (ValueError "urlparse")
      | Some links => inr (elements links)
      end
  end.

End Client.

(** ** rufus/client.py: the crawl engine

    [_crawl] is a coroutine. It runs without interruption between two
    [await]s, so a coroutine is a task with a resumption point, and the
    session ([visited_urls], [results]) is the store all tasks share. The
    event loop resumes one ready task at a time, in any order. *)

Section Crawl.
Context `{Libraries}.

(** Where a [_crawl(url, depth)] coroutine stands. *)
Inductive pc :=
| Created                          (* coroutine object made, body not yet entered *)
| AwaitRender                      (* at [await self._render_page(url)] *)
| AwaitSleep (links : list string) (* at [await asyncio.sleep(1)] *)
| AwaitGather (kids : list nat)    (* at [await asyncio.gather( *tasks)] *)
| Returned
| Raised (e : exn).

Record task := {
  t_url : string;
  t_depth : Z;
  t_pc : pc
}.

(** Ghost record of what the session did, oldest first. *)
Inductive event :=
| Marked (url : string)                    (* self.visited_urls.add(url) *)
| RenderIssued (url : string) (depth : Z)  (* self._render_page(url) called *)
| Spawned (url : string) (depth : Z).      (* tasks.append(self._crawl(link, depth + 1)) *)

Record session := {
  browser : bool;
  visited_urls : gset string;
  results : list (string * string);
  tasks : list task;
  events : list event
}.

(** [scrape] resets the state and [run] launches the browser, then awaits
    [_crawl(base_url, depth=0)]: task 0. *)
Definition scrape_init (base_url : string) : session :=
  {| browser := true; visited_urls := ∅; results := [];
     tasks := [ {| t_url := base_url; t_depth := 0; t_pc := Created |} ];
     events := [] |}.

(** The three [if ...: return] at the head of [_crawl], in source order. *)
Inductive guard := DepthExceeded | AlreadyVisited | BudgetReached | Proceed.

Definition crawl_guard (self : RufusClient) (visited : gset string)
    (url : string) (depth : Z) : guard :=
  if max_depth self <? depth then DepthExceeded
  else if bool_decide (url ∈ visited) then AlreadyVisited
  else if max_pages self <=? Z.of_nat (size visited) then BudgetReached
  else Proceed.

Definition with_pc (t : task) (p : pc) : task :=
  {| t_url := t_url t; t_depth := t_depth t; t_pc := p |}.

Definition set_pc (i : nat) (t : task) (p : pc) (s : session) : session :=
  {| browser := browser s; visited_urls := visited_urls s;
     results := results s; tasks := <[i := with_pc t p]> (tasks s);
     events := events s |}.

(** Lines 115-131: the guard, then [visited_urls.add(url)], then the render
    is awaited. *)
Definition crawl_enter (self : RufusClient) (i : nat) (t : task)
    (s : session) : session :=
  match crawl_guard self (visited_urls s) (t_url t) (t_depth t) with
  | Proceed =>
      {| browser := browser s;
         visited_urls := {[t_url t]} ∪ visited_urls s;
         results := results s;
         tasks := <[i := with_pc t AwaitRender]> (tasks s);
         events := events s ++ [Marked (t_url t); RenderIssued (t_url t) (t_depth t)] |}
  | _ => set_pc i t Returned s
  end.

(** Lines 132-146, the rest of the [try] once [html] is bound. An exception
    of [_extract_content] is caught by [except Exception]. *)
Definition process_page (self : RufusClient) (url html : string)
    (res : list (string * string)) : list (string * string) :=
  match _extract_content html with
  | None => res
  | Some content =>
      if bool_decide (content = "") then res
      else if compute_similarity content (instructions self) (keywords self)
                                 (similarity_threshold self)
           then res ++ [(url, content)]
           else res
  end.

(** Lines 131-155, from the return of the render to the sleep. When
    [_render_page] raises, [except Exception] catches it with [html] still
    unbound, and line 151 reads [html]. *)
Definition crawl_rendered (self : RufusClient) (i : nat) (t : task)
    (pb : page_behaviour) (s : session) : session :=
  match _render_page (browser s) pb with
  | inl _ => set_pc i t (Raised (UnboundLocalError "html")) s
  | inr html =>
      let res := process_page self (t_url t) html (results s) in
      let p := match _extract_links html (t_url t) with
               | inl e => Raised e
               | inr links => AwaitSleep links
               end in
      {| browser := browser s; visited_urls := visited_urls s;
         results := res; tasks := <[i := with_pc t p]> (tasks s);
         events := events s |}
  end.

(** Lines 157-162: the budget test stands in front of every [append]. The
    coroutines made here do not run before the [gather], so the visited
    set is the same throughout the loop. *)
Fixpoint spawn_loop (self : RufusClient) (visited : gset string) (depth : Z)
    (links : list string) : list (string * Z) :=
  match links with
  | [] => []
  | link :: rest =>
      if max_pages self <=? Z.of_nat (size visited) then []
      else (link, depth + 1) :: spawn_loop self visited depth rest
  end.

Definition new_task (c : string * Z) : task :=
  {| t_url := fst c; t_depth := snd c; t_pc := Created |}.

Definition spawned_event (c : string * Z) : event := Spawned (fst c) (snd c).

(** Lines 157-165, from the end of the sleep to the [gather]. *)
Definition crawl_slept (self : RufusClient) (i : nat) (t : task)
    (links : list string) (s : session) : session :=
  let children := spawn_loop self (visited_urls s) (t_depth t) links in
  let p := match children with
           | [] => Returned                     (* if tasks: is false *)
           | _ => AwaitGather (seq (length (tasks s)) (length children))
           end in
  {| browser := browser s; visited_urls := visited_urls s;
     results := results s;
     tasks := <[i := with_pc t p]> (tasks s) ++ (new_task <$> children);
     events := events s ++ (spawned_event <$> children) |}.

(** [asyncio.gather] without [return_exceptions]: the awaiting coroutine
    gets the exception of a child that raised, the other children keep
    running; it gets the results once every child has returned. *)
Definition kid_pc (ts : list task) (k : nat) : pc :=
  match ts !! k with
  | Some t => t_pc t
  | None => Created
  end.

Fixpoint first_raised (ts : list task) (kids : list nat) : option exn :=
  match kids with
  | [] => None
  | k :: rest =>
      match kid_pc ts k with
      | Raised e => Some e
      | _ => first_raised ts rest
      end
  end.

Definition all_returned (ts : list task) (kids : list nat) : bool :=
  forallb (λ k, match kid_pc ts k with Returned => true | _ => false end) kids.

Definition crawl_gathered (i : nat) (t : task) (kids : list nat)
    (s : session) : option session :=
  match first_raised (tasks s) kids with
  | Some e => Some (set_pc i t (Raised e) s)
  | None => if all_returned (tasks s) kids
            then Some (set_pc i t Returned s) else None
  end.

(** The event loop resumes task [i]; [pb] is what the browser does if the
    task is waiting for its render. [None]: the task is not ready. *)
Definition resume (self : RufusClient) (i : nat) (pb : page_behaviour)
    (s : session) : option session :=
  match tasks s !! i with
  | None => None
  | Some t =>
      match t_pc t with
      | Created => Some (crawl_enter self i t s)
      | AwaitRender => Some (crawl_rendered self i t pb s)
      | AwaitSleep links => Some (crawl_slept self i t links s)
      | AwaitGather kids => crawl_gathered i t kids s
      | Returned | Raised _ => None
      end
  end.

Definition step (self : RufusClient) (s s' : session) : Prop :=
  ∃ i pb, resume self i pb s = Some s'.

(** Every point of every crawl of [base_url]. *)
Definition reachable (self : RufusClient) (base_url : string) (s : session) : Prop :=
  rtc (step self) (scrape_init base_url) s.

(** One fixed schedule, for concrete runs. *)
Fixpoint run_schedule (self : RufusClient) (sched : list (nat * page_behaviour))
    (s : session) : option session :=
  match sched with
  | [] => Some s
  | (i, pb) :: rest =>
      match resume self i pb s with
      | None => None
      | Some s' => run_schedule self rest s'
      end
  end.

(** What [run] gives back once task 0 is over: [self.results], or the
    exception that came out of [_crawl]. *)
Definition run_result (s : session) : option (exn + list (string * string)) :=
  match tasks s !! 0%nat with
  | Some t =>
      match t_pc t with
      | Returned => Some (inr (results s))
      | Raised e => Some (inl e)
      | _ => None
      end
  | None => None
  end.

(** Readings of the ghost record. *)
Definition marked_urls (evs : list event) : list string :=
  omap (λ e, match e with Marked u => Some u | _ => None end) evs.

Definition rendered (evs : list event) : list (string * Z) :=
  omap (λ e, match e with RenderIssued u d => Some (u, d) | _ => None end) evs.

Definition spawned (evs : list event) : list (string * Z) :=
  omap (λ e, match e with Spawned u d => Some (u, d) | _ => None end) evs.

End Crawl.

(** ** Notions the properties are stated with *)

(** Number of occurrences of a token. *)
Definition freq (w : string) (toks : list string) : nat :=
  length (filter (λ x, x = w) toks).

(** The first occurrence of [a] stands in front of every occurrence of [b]. *)
Definition first_before (toks : list string) (a b : string) : Prop :=
  ∃ l1 l2, toks = l1 ++ a :: l2 ∧ (a ∉ l1) ∧ (b ∉ l1) ∧ a ≠ b.

(** Ranking of [most_common]: more frequent first, and among equally
    frequent tokens the one that occurred first. *)
Definition ranks_before (toks : list string) (a b : string) : Prop :=
  (freq b toks < freq a toks)%nat ∨
  (freq a toks = freq b toks ∧ first_before toks a b).

(** [x] stands somewhere in front of [y] in [l]. *)
Definition before {A} (l : list A) (x y : A) : Prop :=
  ∃ l1 l2 l3, l = l1 ++ x :: l2 ++ y :: l3.

(** Order in which [sorted_desc] leaves the items of the counter [c]. *)
Definition item_order (c : PyCounter.counter) (x y : string * nat) : Prop :=
  (snd y < snd x)%nat ∨ (snd x = snd y ∧ before c x y).

(** URLs of the tasks whose render is in flight. *)
Definition in_flight (t : task) : list string :=
  match t_pc t with
  | AwaitRender => [t_url t]
  | _ => []
  end.

Definition awaiting (ts : list task) : list string := ts ≫= in_flight.

(** URLs a task of the session answers for: those with a result and those
    whose render is in flight. *)
Definition owners (s : session) : list string :=
  (results s).*1 ++ awaiting (tasks s).

(** What holds at every point of a crawl. *)
Record crawl_inv `{Libraries} (self : RufusClient) (s : session) : Prop := {
  inv_marked_nodup : NoDup (marked_urls (events s));
  inv_marked_visited : ∀ u, u ∈ marked_urls (events s) ↔ u ∈ visited_urls s;
  inv_render_after_mark : (rendered (events s)).*1 = marked_urls (events s);
  inv_render_depth : ∀ u d, (u, d) ∈ rendered (events s) → d ≤ max_depth self;
  inv_owner_nodup : NoDup (owners s);
  inv_owner_visited : ∀ u, u ∈ owners s → u ∈ visited_urls s;
  inv_budget : 0 ≤ max_pages self → Z.of_nat (size (visited_urls s)) ≤ max_pages self
}.

(** With [max_pages = 1] and [max_depth >= 0] the session never holds
    more than the seed's task. *)
Definition lone_seed (base_url : string) (s : session) : Prop :=
  ∃ t, tasks s = [t] ∧ t_url t = base_url ∧ t_depth t = 0 ∧
       spawned (events s) = [] ∧
       match t_pc t with
       | Created => visited_urls s = ∅ ∧ rendered (events s) = []
       | AwaitGather _ => False
       | _ => visited_urls s = {[base_url]} ∧ rendered (events s) = [(base_url, 0)]
       end.

(** What the counter of [toks] holds: one key per distinct token, in the
    order of the first occurrences, each with its number of occurrences. *)
Record counter_ok (toks : list string) (c : PyCounter.counter) : Prop := {
  ok_nodup : NoDup c.*1;
  ok_keys : ∀ w, w ∈ c.*1 ↔ w ∈ toks;
  ok_count : ∀ a n, (a, n) ∈ c → n = freq a toks;
  ok_order : ∀ a b, before c.*1 a b → first_before toks a b
}.

(** ** A small instance of the libraries, for concrete runs

    Scores are rationals. A page is written [text|href|href...]; the
    similarity of a text to any instruction is 1/10 when the text contains
    [offtopic] and 1/2 otherwise; the text [<unencodable>] makes the
    embedding model raise. *)

Module Toy.

Fixpoint split_bar (cur : string) (s : string) : list string :=
  match s with
  | EmptyString => [cur]
  | String c s' =>
      if Ascii.eqb c "|"%char then cur :: split_bar "" s'
      else split_bar (cur +:+ String c EmptyString) s'
  end.

Definition scheme_of (u : string) : option string :=
  if String.prefix "http://[" u then None
  else if String.prefix "https://" u then Some "https"
  else if String.prefix "http://" u then Some "http"
  else Some "".

#[export] Instance libs : Libraries := {|
  score := Q;
  vec := string;
  soup := list string;
  score_gt := λ a b, negb (Qle_bool a b);
  str_lower := PyStr.lower;
  str_isalpha := PyStr.isalpha;
  word_tokenize := λ s, Some (PyStr.split_ws "" s);
  stopwords_english := Some ["a"; "about"; "an"; "and"; "for"; "in"; "of"; "the"; "to"];
  model_encode := λ a b, if String.eqb b "<unencodable>" then None else Some (a, b);
  cosine_similarity := λ _ v, if PyStr.str_in "offtopic" v then Some (1 # 10)%Q else Some (1 # 2)%Q;
  html_parser := λ h, Some (split_bar "" h);
  get_text := λ sp, hd "" sp;
  find_all_a_href := λ sp, tl sp;
  urlparse_scheme := scheme_of;
  urljoin := λ base u, Some (base +:+ u)
|}.

Definition client (kws : option (list string)) (depth pages : Z) (thr : Q)
  : RufusClient :=
  {| api_key := "secret"; instructions := "find the FAQ"; keywords := kws;
     max_depth := depth; max_pages := pages; similarity_threshold := thr |}.

Definition loads (html : string) : page_behaviour :=
  {| setup_raises := false; load := Some html; close_raises := false |}.

Definition navigation_fails : page_behaviour :=
  {| setup_raises := false; load := None; close_raises := false |}.

Definition setup_fails : page_behaviour :=
  {| setup_raises := true; load := None; close_raises := false |}.

Definition seed : string := "http://site/".

(** The seed page: a text about the FAQ and two links. *)
Definition seed_page : string :=
  "Welcome to our FAQ page|http://site/a|http://site/b".

Definition faq_client : RufusClient := client (Some ["FAQ"]) 5 200 (3 # 10)%Q.

(** The seed loads and spawns its two children; [http://site/a] loads
    and is accepted; the browser fails to open a page for
    [http://site/b]; then the seed's [gather] resumes. *)
Definition failing_setup_run : list (nat * page_behaviour) :=
  [ (0%nat, loads seed_page); (0%nat, loads seed_page); (0%nat, loads seed_page);
    (1%nat, loads "All FAQ answers"); (1%nat, loads "All FAQ answers");
    (1%nat, loads "All FAQ answers");
    (2%nat, setup_fails); (2%nat, setup_fails);
    (0%nat, loads seed_page) ].

(** The same crawl when the page of [http://site/b] fails to load instead:
    [goto] raises inside [_render_page]. *)
Definition failing_navigation_run : list (nat * page_behaviour) :=
  [ (0%nat, loads seed_page); (0%nat, loads seed_page); (0%nat, loads seed_page);
    (1%nat, loads "All FAQ answers"); (1%nat, loads "All FAQ answers");
    (1%nat, loads "All FAQ answers");
    (2%nat, navigation_fails); (2%nat, navigation_fails); (2%nat, navigation_fails);
    (0%nat, loads seed_page) ].

(** The state the second crawl ends in. *)
Definition navigation_final : session :=
  default (scrape_init seed)
          (run_schedule faq_client failing_navigation_run (scrape_init seed)).

(** A client with a page budget of one. *)
Definition one_page_client : RufusClient := client (Some ["FAQ"]) 5 1 (3 # 10)%Q.

Definition one_page_final : session :=
  default (scrape_init seed)
          (run_schedule one_page_client
             [ (0%nat, loads seed_page); (0%nat, loads seed_page);
               (0%nat, loads seed_page) ] (scrape_init seed)).

End Toy.

(** ** Link resolution *)

Section LinkNotions.
Context `{Libraries}.

(** Lines 225-230 of [_extract_links]: an [href] whose own scheme is http
    or https is taken as it is, any other is joined to the URL of the
    page. [None] when [urlparse] or [urljoin] raises. *)
Definition resolve_href (current_url href : string) : option string :=
  match urlparse_scheme href with
  | None => None
  | Some scheme =>
      if bool_decide (scheme ∈ ["http"; "https"]) then Some href
      else urljoin current_url href
  end.

(** The [href] ends up in the link set as [u]. *)
Definition kept_link (current_url href u : string) : Prop :=
  resolve_href current_url href = Some u ∧ _is_valid_url u = Some true.

(** Handling the [href] raises: in [urlparse(href)], in [urljoin], or in
    the [urlparse] of [_is_valid_url]. *)
Definition href_raises (current_url href : string) : Prop :=
  resolve_href current_url href = None ∨
  ∃ u, resolve_href current_url href = Some u ∧ _is_valid_url u = None.

End LinkNotions.

(** ** api_server.py *)

Section ApiServer.
Context `{Libraries}.

(** The pydantic model [ScrapeRequest]. *)
Record ScrapeRequest := {
  req_base_url : string;
  req_instructions : string;
  req_keywords : option (list string);
  req_max_depth : Z;
  req_max_pages : Z;
  req_similarity_threshold : score
}.

(** What leaves the [try] of [scrape_data]: an exception of the client or
    of the crawl, or the [HTTPException] the handler raises itself. *)
Inductive raised :=
| Raise (e : exn)
| RaiseHTTP (status_code : Z) (detail : string).

(** What the endpoint answers: the documents with status 200, or the
    status and detail of an [HTTPException]. *)
Inductive http_response :=
| Documents (docs : list (string * string))
| HTTPError (status_code : Z) (detail : string).

(** The dependency [get_api_key]; the header is compared with
    [os.getenv('RUFUS_API_KEY')]. *)
Definition get_api_key (getenv_key : option string) (x_api_key : string)
  : (Z * string) + string :=
  if bool_decide (Some x_api_key ≠ getenv_key)
  then inl (401, "Invalid or missing API Key")
  else inr x_api_key.

(** The body of the [try]; [crawl] is what [await client.scrape(base_url)]
    comes to, a list of documents or an exception. *)
Definition scrape_body (getenv_key : option string) (request : ScrapeRequest)
    (key : string) (crawl : RufusClient → string → exn + list (string * string))
  : raised + list (string * string) :=
  match __init__ getenv_key key (req_instructions request) (req_keywords request)
                 (req_max_depth request) (req_max_pages request)
                 (req_similarity_threshold request) with
  | inl e => inl (Raise e)
  | inr client =>
      match crawl client (req_base_url request) with
      | inl e => inl (Raise e)
      | inr [] => inl (RaiseHTTP 404 "No relevant documents were extracted.")
      | inr results => inr results
      end
  end.

(** [scrape_data]: [except ValueError] answers 400 with [str(ve)], and
    [except Exception] answers 500 for everything else raised in the [try]. *)
Definition scrape_data (getenv_key : option string) (request : ScrapeRequest)
    (x_api_key : string)
    (crawl : RufusClient → string → exn + list (string * string))
  : http_response :=
  match get_api_key getenv_key x_api_key with
  | inl (status_code, detail) => HTTPError status_code detail
  | inr key =>
      match scrape_body getenv_key request key crawl with
      | inr results => Documents results
      | inl (Raise (ValueError msg)) => HTTPError 400 msg
      | inl _ => HTTPError 500 "An error occurred during scraping."
      end
  end.

Definition status_of (r : http_response) : Z :=
  match r with
  | Documents _ => 200
  | HTTPError status_code _ => status_code
  end.

End ApiServer.

(** ** Shape of the task pool and a measure of the work left *)

Section TaskNotions.
Context `{Libraries}.

Definition finished (p : pc) : bool :=
  match p with
  | Returned | Raised _ => true
  | _ => false
  end.



(** Every document of the results is a non-empty text the scorer accepted. *)
Definition results_sound (self : RufusClient) (s : session) : Prop :=
  ∀ u content, (u, content) ∈ results s →
    content ≠ "" ∧
    compute_similarity content (instructions self) (keywords self)
                       (similarity_threshold self) = true.



(** Every task but the seed's has a parent made before it: one that still
    waits for it in its [gather], one that raised, or one that returned
    after the task itself had returned. *)
Definition parent_inv (s : session) : Prop :=
  ∀ j t, (0 < j)%nat → tasks s !! j = Some t →
    ∃ i p, (i < j)%nat ∧ tasks s !! i = Some p ∧
      ((∃ kids, t_pc p = AwaitGather kids ∧ j ∈ kids) ∨
       (∃ e, t_pc p = Raised e) ∨
       (t_pc p = Returned ∧ t_pc t = Returned)).






End TaskNotions.


(** ** A second instance of the libraries, whose URL functions never raise *)

Module Lenient.

Definition libs : Libraries := {|
  score := Q;
  vec := string;
  soup := list string;
  score_gt := λ a b, negb (Qle_bool a b);
  str_lower := PyStr.lower;
  str_isalpha := PyStr.isalpha;
  word_tokenize := λ s, Some (PyStr.split_ws "" s);
  stopwords_english := Some ["a"; "about"; "an"; "and"; "for"; "in"; "of"; "the"; "to"];
  model_encode := λ a b, if String.eqb b "<unencodable>" then None else Some (a, b);
  cosine_similarity := λ _ v, if PyStr.str_in "offtopic" v then Some (1 # 10)%Q else Some (1 # 2)%Q;
  html_parser := λ h, Some (Toy.split_bar "" h);
  get_text := λ sp, hd "" sp;
  find_all_a_href := λ sp, tl sp;
  urlparse_scheme := λ u, Some (default "" (Toy.scheme_of u));
  urljoin := λ base u, Some (base +:+ u)
|}.

Definition client : @RufusClient libs :=
  @Build_RufusClient libs "secret" "find the FAQ" (Some ["FAQ"]) 5 200 (3 # 10)%Q.


End Lenient.

(** * Properties *)

(** ** Strings *)

Lemma prefix_app (a b : string) :
  String.prefix a b = true ↔ ∃ q, b = a +:+ q.
Proof.
  revert b. induction a as [|c a IH]; intros b; simpl.
  - destruct b; simpl; (split; [intros _; eexists; reflexivity | reflexivity]).
  - destruct b as [|c' b]; simpl.
    + split; [discriminate | intros [q Hq]; discriminate].
    + destruct (Ascii.ascii_dec c c') as [->|Hne].
      * rewrite IH. split; intros [q Hq]; exists q; [by rewrite Hq | by injection Hq].
      * split; [discriminate | intros [q Hq]; injection Hq; intros; congruence].
Qed.

Lemma str_in_occurs (sub s : string) :
  PyStr.str_in sub s = true ↔ PyStr.occurs_in sub s.
Proof.
  unfold PyStr.occurs_in. induction s as [|c s IH]; cbn [PyStr.str_in].
  - rewrite orb_false_r, prefix_app. split.
    + intros [q Hq]. by exists "", q.
    + intros [p [q Hq]]. destruct p; simpl in Hq; [by exists q | discriminate].
  - rewrite orb_true_iff, prefix_app, IH. split.
    + intros [[q Hq] | [p [q Hq]]].
      * by exists "", q.
      * exists (String c p), q. simpl. by rewrite Hq.
    + intros [p [q Hq]]. destruct p as [|c' p]; simpl in Hq.
      * left. by exists q.
      * right. injection Hq as _ Hq. by exists p, q.
Qed.

(** ** The relevance scorer and the constructor *)

Section ScorerProps.
Context `{Libraries}.

Lemma has_keyword_occurs (kws : list string) (content : string) :
  existsb (λ keyword, PyStr.str_in (str_lower keyword) (str_lower content)) kws = true
  ↔ ∃ k, k ∈ kws ∧ PyStr.occurs_in (str_lower k) (str_lower content).
Proof.
  rewrite existsb_exists. split.
  - intros [k [Hin Hk]]. exists k. split; [by apply list_elem_of_In | by apply str_in_occurs].
  - intros [k [Hin Hk]]. exists k. split; [by apply list_elem_of_In | by apply str_in_occurs].
Qed.

Lemma truthy_keyword_list (kws : option (list string)) :
  truthy kws = false ↔ keyword_list kws = [].
Proof. destruct kws as [[|k l]|]; simpl; split; congruence. Qed.

Lemma compute_similarity_unfold (content instr : string)
    (kws : option (list string)) (thr sim : score) :
  similarity_of content instr = Some sim →
  compute_similarity content instr kws thr =
  score_gt sim thr &&
  (if truthy kws
   then existsb (λ keyword, PyStr.str_in (str_lower keyword) (str_lower content))
                (keyword_list kws)
   else true).
Proof.
  unfold similarity_of, compute_similarity.
  destruct (model_encode instr content) as [[e0 e1]|]; [|done].
  by intros ->.
Qed.

Lemma compute_similarity_failure (content instr : string)
    (kws : option (list string)) (thr : score) :
  similarity_of content instr = None →
  compute_similarity content instr kws thr = false.
Proof.
  unfold similarity_of, compute_similarity.
  destruct (model_encode instr content) as [[e0 e1]|]; [|done].
  by intros ->.
Qed.

Lemma accepted_iff (content instr : string)
    (kws : option (list string)) (thr : score) :
  compute_similarity content instr kws thr = true ↔
  (∃ sim, similarity_of content instr = Some sim ∧ score_gt sim thr = true) ∧
  (keyword_list kws = [] ∨
   ∃ k, k ∈ keyword_list kws ∧ PyStr.occurs_in (str_lower k) (str_lower content)).
Proof.
  destruct (similarity_of content instr) as [sim|] eqn:Hsim.
  - rewrite (compute_similarity_unfold _ _ _ _ _ Hsim), andb_true_iff.
    destruct (truthy kws) eqn:Hk.
    + rewrite has_keyword_occurs. split.
      * intros [Hgt Hocc]. split; [by exists sim | by right].
      * intros [[sim' [[= <-] Hgt]] [Hnil | Hocc]]; [|done].
        apply truthy_keyword_list in Hnil. congruence.
    + apply truthy_keyword_list in Hk. split.
      * intros [Hgt _]. split; [by exists sim | by left].
      * by intros [[sim' [[= <-] Hgt]] _].
  - rewrite (compute_similarity_failure _ _ _ _ Hsim). split; [done|].
    by intros [[sim [? _]] _].
Qed.

(** C3: the scorer accepts exactly when the similarity of the two
    embeddings is strictly above the threshold and the keyword list is
    empty or one of its keywords occurs, case-insensitively, in the
    content. With keywords and no occurrence the page is rejected; without
    keywords the similarity test alone decides. *)
Theorem C3_relevance_gate (content instr : string)
    (kws : option (list string)) (thr : score) :
  let accepted := compute_similarity content instr kws thr = true in
  let similar := ∃ sim, similarity_of content instr = Some sim ∧ score_gt sim thr = true in
  let occurs := ∃ k, k ∈ keyword_list kws ∧
                     PyStr.occurs_in (str_lower k) (str_lower content) in
  (accepted ↔ similar ∧ (keyword_list kws = [] ∨ occurs)) ∧
  (keyword_list kws ≠ [] → ¬ occurs → ¬ accepted) ∧
  (keyword_list kws = [] → (accepted ↔ similar)).
Proof.
  intros accepted similar occurs.
  pose proof (accepted_iff content instr kws thr) as Hiff.
  fold accepted similar occurs in Hiff.
  split; [exact Hiff|]. split.
  - intros Hne Hno Hacc. apply Hiff in Hacc as [_ [?|?]]; done.
  - intros Hnil. rewrite Hiff. split; [by intros [? _] | intros ?; split; [done | by left]].
Qed.

(** C8: when the embeddings or their similarity cannot be obtained, the
    scorer answers [false]; the page is skipped, the results are left as
    they were and the node goes on to its links. *)
Theorem C8_scoring_failure_skips_page (content instr : string)
    (kws : option (list string)) (thr : score) :
  similarity_of content instr = None →
  compute_similarity content instr kws thr = false ∧
  ∀ (self : RufusClient) (i : nat) (t : task) (pb : page_behaviour)
    (s : session) (html : string),
    instructions self = instr →
    _render_page (browser s) pb = inr html →
    _extract_content html = Some content →
    results (crawl_rendered self i t pb s) = results s ∧
    ∀ links, _extract_links html (t_url t) = inr links →
      tasks (crawl_rendered self i t pb s) = <[i := with_pc t (AwaitSleep links)]> (tasks s).
Proof.
  intros Hfail. split; [by apply compute_similarity_failure|].
  intros self i t pb s html <- Hrender Hcontent.
  unfold crawl_rendered. rewrite Hrender. simpl. split.
  - unfold process_page. rewrite Hcontent.
    case_bool_decide; [done|].
    by rewrite compute_similarity_failure.
  - by intros links ->.
Qed.

(** C10: a client built with an explicitly empty keyword list holds the
    keywords extracted from its instructions; when there is at least one,
    a page is accepted only if one of them occurs in it. *)
Theorem C10_empty_keywords_replaced (getenv_key : option string)
    (key instr : string) (depth pages : Z) (thr : score) (self : RufusClient) :
  __init__ getenv_key key instr (Some []) depth pages thr = inr self →
  keywords self = Some (extract_keywords instr 5) ∧
  (extract_keywords instr 5 ≠ [] →
   ∀ content,
     compute_similarity content (instructions self) (keywords self)
                        (similarity_threshold self) = true →
     ∃ k, k ∈ extract_keywords instr 5 ∧
          PyStr.occurs_in (str_lower k) (str_lower content)).
Proof.
  unfold __init__. simpl. case_match; [|done]. intros [= <-]. simpl.
  split; [done|]. intros Hne content Hacc.
  apply accepted_iff in Hacc as [_ [Hnil | Hocc]]; [done | exact Hocc].
Qed.

(** C4, as the code has it: the constructor raises exactly when the API
    key differs from the expected one, and then it is the [ValueError] of
    the key; no value of [max_depth], [max_pages] or the threshold makes it
    raise, and the client keeps the values it was given. *)
Theorem C4_only_the_key_is_checked (getenv_key : option string)
    (key instr : string) (kws : option (list string))
    (depth pages : Z) (thr : score) :
  ((∃ e, __init__ getenv_key key instr kws depth pages thr = inl e) ↔
   getenv_key ≠ Some key) ∧
  (∀ e, __init__ getenv_key key instr kws depth pages thr = inl e →
        e = ValueError "Invalid API Key.") ∧
  (∀ self, __init__ getenv_key key instr kws depth pages thr = inr self →
           max_depth self = depth ∧ max_pages self = pages ∧
           similarity_threshold self = thr).
Proof.
  unfold __init__, _authenticate. case_bool_decide as Hk.
  - split; [split; [by intros [e ?] | done]|].
    split; [done | by intros self [= <-]].
  - split; [split; [done | intros _; by eexists]|].
    split; [by intros e [= <-] | done].
Qed.

End ScorerProps.

(** ** The keyword extractor *)

Section CounterProps.
Import PyCounter.

Lemma freq_snoc (a w : string) (toks : list string) :
  freq a (toks ++ [w]) = (freq a toks + (if bool_decide (w = a) then 1 else 0))%nat.
Proof.
  unfold freq. rewrite filter_app, length_app. f_equal.
  rewrite filter_cons, filter_nil.
  destruct (decide (w = a)); case_bool_decide; done.
Qed.

Lemma freq_absent (a : string) (toks : list string) :
  a ∉ toks → freq a toks = 0%nat.
Proof.
  unfold freq. induction toks as [|x toks IH]; [done|].
  intros Hn. apply not_elem_of_cons in Hn as [Hne Hn].
  rewrite filter_cons. destruct (decide (x = a)); [congruence | by apply IH].
Qed.

Lemma incr_keys (w : string) (c : counter) :
  (incr w c).*1 = if bool_decide (w ∈ c.*1) then c.*1 else c.*1 ++ [w].
Proof.
  induction c as [|[w' n] c IH].
  - done.
  - cbn [incr]. destruct (String.eqb_spec w w') as [->|Hne]; rewrite !fmap_cons; cbn [fst].
    + rewrite bool_decide_eq_true_2; [done | by left].
    + rewrite IH.
      destruct (decide (w ∈ c.*1)) as [Hin | Hout].
      * rewrite !bool_decide_eq_true_2; [done | by right | done].
      * rewrite !bool_decide_eq_false_2; [done | | done].
        intros [? | ?]%elem_of_cons; done.
Qed.

Lemma incr_elem (a w : string) (n : nat) (c : counter) :
  NoDup c.*1 →
  (a, n) ∈ incr w c →
  (a ≠ w ∧ (a, n) ∈ c) ∨
  (a = w ∧ ((∃ m, n = S m ∧ (w, m) ∈ c) ∨ (n = 1%nat ∧ w ∉ c.*1))).
Proof.
  induction c as [|[w' m] c IH]; cbn [incr]; rewrite ?fmap_cons; cbn [fst]; intros Hnd Hin.
  - apply list_elem_of_singleton in Hin as [= -> ->].
    right. split; [done|]. right. split; [done | apply not_elem_of_nil].
  - apply NoDup_cons in Hnd as [Hfresh Hnd].
    destruct (String.eqb_spec w w') as [->|Hne].
    + apply elem_of_cons in Hin as [[= -> ->] | Hin].
      * right. split; [done|]. left. exists m. split; [done | by left].
      * destruct (decide (a = w')) as [->|Hne].
        -- exfalso. apply Hfresh. apply list_elem_of_fmap. by exists (w', n).
        -- left. split; [done | by right].
    + apply elem_of_cons in Hin as [[= -> ->] | Hin].
      * left. split; [congruence | by left].
      * destruct (IH Hnd Hin) as [[Hne' Hin'] | [-> [[m' [-> Hin']] | [-> Hout]]]].
        -- left. split; [done | by right].
        -- right. split; [done|]. left. exists m'. split; [done | by right].
        -- right. split; [done|]. right. split; [done|].
           apply not_elem_of_cons. done.
Qed.

Lemma Counter_snoc (toks : list string) (w : string) :
  Counter (toks ++ [w]) = incr w (Counter toks).
Proof. unfold Counter. by rewrite fold_left_app. Qed.

Lemma first_before_snoc (toks : list string) (a b w : string) :
  first_before toks a b → first_before (toks ++ [w]) a b.
Proof.
  intros (l1 & l2 & -> & Ha & Hb & Hne).
  exists l1, (l2 ++ [w]). by rewrite <- app_assoc.
Qed.

Lemma Counter_ok (toks : list string) : counter_ok toks (Counter toks).
Proof.
  induction toks as [|w toks IH] using rev_ind.
  - split; simpl.
    + constructor.
    + done.
    + intros a n Hin. by apply elem_of_nil in Hin.
    + intros a b (l1 & l2 & l3 & Heq). by destruct l1.
  - destruct IH as [Hnd Hkeys Hcount Horder].
    rewrite Counter_snoc. split.
    + rewrite incr_keys. case_bool_decide as Hin; [done|].
      apply NoDup_app. split; [done|]. split; [|apply NoDup_singleton].
      intros x Hx ->%list_elem_of_singleton. done.
    + intros x. rewrite incr_keys, elem_of_app, list_elem_of_singleton.
      case_bool_decide as Hin.
      * rewrite Hkeys. split; [by left | intros [?| ->]; [done | by apply Hkeys]].
      * by rewrite elem_of_app, Hkeys, list_elem_of_singleton.
    + intros a n Hin. rewrite freq_snoc.
      destruct (incr_elem _ _ _ _ Hnd Hin)
        as [[Hne Hin'] | [-> [[m [-> Hin']] | [-> Hout]]]].
      * rewrite bool_decide_eq_false_2 by congruence.
        rewrite (Hcount _ _ Hin'). lia.
      * rewrite bool_decide_eq_true_2 by done.
        rewrite (Hcount _ _ Hin'). lia.
      * rewrite bool_decide_eq_true_2 by done.
        rewrite freq_absent; [done|]. by rewrite <- Hkeys.
    + intros a b. rewrite incr_keys. case_bool_decide as Hin.
      * intros Hb. by apply first_before_snoc, Horder.
      * intros (l1 & l2 & l3 & Heq).
        destruct l3 as [|z l3 _] using rev_ind.
        -- assert (Heq' : (Counter toks).*1 ++ [w] = (l1 ++ a :: l2) ++ [b]).
           { rewrite Heq. by rewrite <- app_assoc. }
           apply app_inj_tail in Heq' as [Hk ->].
           assert (Ha : a ∈ toks).
           { apply Hkeys. rewrite Hk. apply elem_of_app. right. by left. }
           assert (Hb : b ∉ toks) by by rewrite <- Hkeys.
           apply list_elem_of_split_l in Ha as (t1 & t2 & -> & Ha).
           exists t1, (t2 ++ [b]). rewrite <- app_assoc. simpl.
           split; [done|]. split; [done|]. split.
           ++ intros Hb'. apply Hb. apply elem_of_app. by left.
           ++ intros ->. apply Hb. apply elem_of_app. right. by left.
        -- assert (Heq' : (Counter toks).*1 ++ [w] = (l1 ++ a :: l2 ++ b :: l3) ++ [z]).
           { rewrite Heq. by rewrite <- app_assoc, <- app_comm_cons,
               <- app_assoc, <- app_comm_cons. }
           apply app_inj_tail in Heq' as [Hk ->].
           apply first_before_snoc, Horder. by exists l1, l2, l3.
Qed.

Lemma place_perm (x : string * nat) (l : counter) : place x l ≡ₚ x :: l.
Proof.
  induction l as [|y l IH]; simpl; [done|].
  case_match; [done|]. rewrite IH. apply Permutation_swap.
Qed.

Lemma sorted_desc_perm (c : counter) : sorted_desc c ≡ₚ c.
Proof.
  induction c as [|x c IH]; simpl; [done|]. by rewrite place_perm, IH.
Qed.

Lemma place_sorted (R : relation (string * nat)) (x : string * nat) (s : counter) :
  (∀ a b, R a b → (snd b ≤ snd a)%nat) →
  (∀ y, y ∈ s → (snd y ≤ snd x)%nat → R x y) →
  (∀ y, y ∈ s → (snd x < snd y)%nat → R y x) →
  StronglySorted R s → StronglySorted R (place x s).
Proof.
  intros Hle Hfront Hback Hs.
  induction Hs as [|y s Hs IH Hy]; simpl.
  - by repeat constructor.
  - destruct (Nat.leb_spec (snd y) (snd x)) as [Hyx | Hxy].
    + constructor; [by constructor|].
      constructor; [apply Hfront; [by left | done]|].
      apply Forall_forall. intros z Hz.
      apply Hfront; [by right|].
      rewrite Forall_forall in Hy. specialize (Hle _ _ (Hy z Hz)). lia.
    + constructor.
      * apply IH; intros z Hz; [apply Hfront | apply Hback]; by right.
      * apply Forall_forall. intros z Hz.
        rewrite place_perm in Hz. apply elem_of_cons in Hz as [-> | Hz].
        -- apply Hback; [by left | done].
        -- rewrite Forall_forall in Hy. by apply Hy.
Qed.

Lemma StronglySorted_mono {A} (R R' : relation A) (l : list A) :
  (∀ a b, R a b → R' a b) → StronglySorted R l → StronglySorted R' l.
Proof.
  intros HR Hs. induction Hs as [|x l Hs IH Hx]; constructor; [done|].
  eapply Forall_impl; [exact Hx | by intros; apply HR].
Qed.

Lemma sorted_desc_sorted (c : counter) :
  StronglySorted (item_order c) (sorted_desc c).
Proof.
  induction c as [|x c IH]; simpl; [constructor|].
  apply place_sorted.
  - intros a b [Hlt | [Heq _]]; lia.
  - intros y Hy Hle. rewrite sorted_desc_perm in Hy.
    apply list_elem_of_split in Hy as (l2 & l3 & ->).
    destruct (decide (snd y = snd x)) as [Heq | Hne].
    + right. split; [done|]. by exists [], l2, l3.
    + left. lia.
  - intros y _ Hlt. by left.
  - eapply StronglySorted_mono; [|exact IH].
    intros a b [Hlt | [Heq (l1 & l2 & l3 & ->)]]; [by left|].
    right. split; [done|]. by exists (x :: l1), l2, l3.
Qed.

Lemma StronglySorted_lookup {A} (R : relation A) (l : list A) (i j : nat) (a b : A) :
  StronglySorted R l → (i < j)%nat →
  l !! i = Some a → l !! j = Some b → R a b.
Proof.
  intros Hs. revert i j. induction Hs as [|x l Hs IH Hx]; intros i j Hij Hi Hj.
  - done.
  - destruct j as [|j]; [lia|]. simpl in Hj. destruct i as [|i]; simpl in Hi.
    + injection Hi as ->. rewrite Forall_forall in Hx.
      apply Hx. by eapply list_elem_of_lookup_2.
    + apply (IH i j); [lia | done | done].
Qed.

Lemma before_fst (c : counter) (x y : string * nat) :
  before c x y → before c.*1 x.1 y.1.
Proof.
  intros (l1 & l2 & l3 & ->). exists l1.*1, l2.*1, l3.*1.
  by rewrite fmap_app, fmap_cons, fmap_app, fmap_cons.
Qed.

End CounterProps.

Section KeywordProps.
Context `{Libraries}.

Lemma filtered_tokens_elem (stop_words tokens : list string) (w : string) :
  w ∈ filtered_tokens stop_words tokens ↔
  w ∈ tokens ∧ str_isalpha w = true ∧ w ∉ stop_words.
Proof.
  unfold filtered_tokens, keep_token.
  rewrite list_elem_of_filter, andb_true_iff, negb_true_iff, bool_decide_eq_false.
  tauto.
Qed.

Lemma most_common_take (k : Z) (c : PyCounter.counter) :
  PyCounter.most_common k c = take (Z.to_nat k) (PyCounter.sorted_desc c).
Proof.
  unfold PyCounter.most_common. destruct (Z.leb_spec k 0) as [Hle | Hlt]; [|done].
  assert (Z.to_nat k = 0%nat) as -> by lia. done.
Qed.

Lemma ranking_order (toks : list string) (x y : string * nat) :
  x ∈ PyCounter.Counter toks → y ∈ PyCounter.Counter toks →
  item_order (PyCounter.Counter toks) x y → ranks_before toks x.1 y.1.
Proof.
  destruct (Counter_ok toks) as [_ _ Hcount Horder].
  destruct x as [a n], y as [b m]. intros Hx Hy.
  rewrite (Hcount _ _ Hx), (Hcount _ _ Hy). simpl.
  intros [Hlt | [Heq Hb]]; [by left|]. right. split; [done|].
  apply Horder. by apply before_fst in Hb.
Qed.

(** C7: the extractor lowercases and tokenizes the instructions, keeps the
    tokens that are alphabetic and are no stop words, and returns the first
    [k] entries of their ranking: every distinct kept token once, a more
    frequent token in front of a less frequent one, and of two equally
    frequent tokens the one that occurred first in front. Without any kept
    token the result is the empty list. *)
Theorem C7_extract_keywords_top_k (instr : string) (k : Z)
    (tokens stop_words : list string) :
  word_tokenize (str_lower instr) = Some tokens →
  stopwords_english = Some stop_words →
  let toks := filtered_tokens stop_words tokens in
  (∀ w, w ∈ toks ↔ w ∈ tokens ∧ str_isalpha w = true ∧ w ∉ stop_words) ∧
  (∃ ranked,
     extract_keywords instr k = take (Z.to_nat k) ranked ∧
     NoDup ranked ∧
     (∀ w, w ∈ ranked ↔ w ∈ toks) ∧
     (∀ i j a b, (i < j)%nat → ranked !! i = Some a → ranked !! j = Some b →
                 ranks_before toks a b)) ∧
  (toks = [] → extract_keywords instr k = []).
Proof.
  intros Htok Hstop toks.
  assert (Hex : extract_keywords instr k =
                take (Z.to_nat k) (PyCounter.sorted_desc (PyCounter.Counter toks)).*1).
  { unfold extract_keywords. rewrite Htok, Hstop. simpl.
    by rewrite most_common_take, fmap_take. }
  destruct (Counter_ok toks) as [Hnd Hkeys Hcount Horder].
  split; [apply filtered_tokens_elem|]. split.
  - exists (PyCounter.sorted_desc (PyCounter.Counter toks)).*1.
    split; [done|]. split; [|split].
    + by rewrite sorted_desc_perm.
    + intros w. by rewrite sorted_desc_perm.
    + intros i j a b Hij Hi Hj.
      apply list_lookup_fmap_Some in Hi as (x & -> & Hi).
      apply list_lookup_fmap_Some in Hj as (y & -> & Hj).
      apply ranking_order.
      * rewrite <- sorted_desc_perm. by eapply list_elem_of_lookup_2.
      * rewrite <- sorted_desc_perm. by eapply list_elem_of_lookup_2.
      * eapply StronglySorted_lookup; [apply sorted_desc_sorted | done..].
  - intros Hnil. rewrite Hex, Hnil. simpl. by rewrite take_nil.
Qed.

End KeywordProps.

(** ** The crawl engine *)

Section CrawlProps.
Context `{Libraries}.
Variable self : RufusClient.

Lemma submseteq_NoDup {A} (l k : list A) : l ⊆+ k → NoDup k → NoDup l.
Proof.
  intros [l' Hk]%submseteq_Permutation. rewrite Hk.
  by intros [? _]%NoDup_app.
Qed.

Lemma tasks_split (ts : list task) (i : nat) (t : task) :
  ts !! i = Some t →
  ∃ l1 l2, ts = l1 ++ t :: l2 ∧ ∀ t', <[i := t']> ts = l1 ++ t' :: l2.
Proof.
  intros Hi. exists (take i ts), (drop (S i) ts). split.
  - by rewrite take_drop_middle.
  - intros t'. apply insert_take_drop. by eapply lookup_lt_Some.
Qed.

Lemma awaiting_insert (ts : list task) (i : nat) (t : task) :
  ts !! i = Some t →
  ∃ rest, awaiting ts ≡ₚ in_flight t ++ rest ∧
          ∀ t', awaiting (<[i := t']> ts) ≡ₚ in_flight t' ++ rest.
Proof.
  intros (l1 & l2 & -> & Hins)%tasks_split.
  exists (awaiting l1 ++ awaiting l2). unfold awaiting. split.
  - rewrite bind_app, bind_cons.
    by rewrite (assoc_L (++)), (comm (++) (l1 ≫= in_flight)), <- (assoc_L (++)).
  - intros t'. rewrite Hins, bind_app, bind_cons.
    by rewrite (assoc_L (++)), (comm (++) (l1 ≫= in_flight)), <- (assoc_L (++)).
Qed.

Lemma awaiting_new_tasks (cs : list (string * Z)) :
  awaiting (new_task <$> cs) = [].
Proof. unfold awaiting. induction cs as [|c cs IH]; [done|]. by rewrite fmap_cons, bind_cons, IH. Qed.

Lemma marked_spawned (cs : list (string * Z)) :
  marked_urls (spawned_event <$> cs) = [].
Proof. unfold marked_urls. induction cs as [|c cs IH]; [done|]. by rewrite fmap_cons. Qed.

Lemma rendered_spawned (cs : list (string * Z)) :
  rendered (spawned_event <$> cs) = [].
Proof. unfold rendered. induction cs as [|c cs IH]; [done|]. by rewrite fmap_cons. Qed.

Lemma spawned_spawned (cs : list (string * Z)) :
  spawned (spawned_event <$> cs) = cs.
Proof.
  unfold spawned. induction cs as [|[u d] cs IH]; [done|].
  rewrite fmap_cons. simpl. by f_equal.
Qed.

Lemma inv_init (base_url : string) : crawl_inv self (scrape_init base_url).
Proof.
  split; simpl.
  - constructor.
  - intros u. split; [by intros ?%elem_of_nil | by intros ?%not_elem_of_empty].
  - done.
  - by intros u d ?%elem_of_nil.
  - constructor.
  - by intros u ?%elem_of_nil.
  - done.
Qed.

(** A step that leaves the visited set and the marks alone and only drops
    or moves owners keeps the invariant. *)
Lemma inv_same_frontier (s s' : session) :
  crawl_inv self s →
  visited_urls s' = visited_urls s →
  marked_urls (events s') = marked_urls (events s) →
  rendered (events s') = rendered (events s) →
  owners s' ⊆+ owners s →
  crawl_inv self s'.
Proof.
  intros [I1 I2 I3 I4 I5 I6 I7] Hv Hm Hr Hsub.
  split; rewrite ?Hv, ?Hm, ?Hr; try done.
  - by eapply submseteq_NoDup.
  - intros u Hu. apply I6. by eapply elem_of_submseteq.
Qed.

Lemma inv_set_pc (s : session) (i : nat) (t : task) (p : pc) :
  crawl_inv self s → tasks s !! i = Some t →
  in_flight (with_pc t p) = [] →
  crawl_inv self (set_pc i t p s).
Proof.
  intros Hinv Hi Hp. apply (inv_same_frontier s); try done.
  unfold owners. simpl.
  destruct (awaiting_insert _ _ _ Hi) as (rest & Hold & Hnew).
  rewrite Hold, (Hnew (with_pc t p)), Hp. simpl.
  apply submseteq_app; [done|]. by apply submseteq_inserts_l.
Qed.

Lemma inv_enter (s : session) (i : nat) (t : task) :
  crawl_inv self s → tasks s !! i = Some t → t_pc t = Created →
  crawl_inv self (crawl_enter self i t s).
Proof.
  intros Hinv Hi Hpc. unfold crawl_enter, crawl_guard.
  destruct (Z.ltb_spec (max_depth self) (t_depth t)) as [Hd | Hd];
    [by apply inv_set_pc|].
  case_bool_decide as Hvis; [by apply inv_set_pc|].
  destruct (Z.leb_spec (max_pages self) (Z.of_nat (size (visited_urls s)))) as [Hb | Hb];
    [by apply inv_set_pc|].
  destruct Hinv as [I1 I2 I3 I4 I5 I6 I7].
  destruct (awaiting_insert _ _ _ Hi) as (rest & Hold & Hnew).
  assert (Hfl : in_flight t = []) by (unfold in_flight; by rewrite Hpc).
  rewrite Hfl in Hold. simpl in Hold.
  assert (Hown : (results s).*1 ++ awaiting (<[i := with_pc t AwaitRender]> (tasks s))
                 ≡ₚ t_url t :: owners s).
  { unfold owners. rewrite (Hnew (with_pc t AwaitRender)), Hold. simpl.
    by rewrite Permutation_middle. }
  split; simpl.
  - unfold marked_urls. rewrite omap_app. simpl.
    apply NoDup_app. split; [done|]. split; [|apply NoDup_singleton].
    intros u Hu ->%list_elem_of_singleton. by apply Hvis, I2.
  - intros u. unfold marked_urls. rewrite omap_app. simpl.
    rewrite elem_of_app, list_elem_of_singleton, elem_of_union, elem_of_singleton.
    fold (marked_urls (events s)). rewrite I2. tauto.
  - unfold rendered, marked_urls. rewrite !omap_app, fmap_app. simpl.
    f_equal. exact I3.
  - intros u d. unfold rendered. rewrite omap_app. simpl.
    rewrite elem_of_app, list_elem_of_singleton.
    intros [Hin | [= -> ->]]; [by eapply I4 | done].
  - unfold owners at 1. simpl. rewrite Hown. apply NoDup_cons. split; [|done].
    intros Hin. by apply Hvis, I6.
  - intros u. unfold owners at 1. simpl.
    rewrite Hown, elem_of_cons, elem_of_union, elem_of_singleton.
    intros [-> | Hin]; [by left | right; by apply I6].
  - intros Hp. rewrite size_union by by apply disjoint_singleton_l.
    rewrite size_singleton. lia.
Qed.

Lemma inv_rendered (s : session) (i : nat) (t : task) (pb : page_behaviour) :
  crawl_inv self s → tasks s !! i = Some t → t_pc t = AwaitRender →
  crawl_inv self (crawl_rendered self i t pb s).
Proof.
  intros Hinv Hi Hpc. unfold crawl_rendered.
  destruct (_render_page (browser s) pb) as [e | html]; [by apply inv_set_pc|].
  apply (inv_same_frontier s); try done. unfold owners. simpl.
  destruct (awaiting_insert _ _ _ Hi) as (rest & Hold & Hnew).
  assert (Hfl : in_flight t = [t_url t]) by (unfold in_flight; by rewrite Hpc).
  rewrite Hfl in Hold.
  match goal with |- context [with_pc t ?p] => set (p' := p) end.
  assert (Hp' : in_flight (with_pc t p') = []).
  { unfold p'. by destruct (_extract_links html (t_url t)). }
  rewrite (Hnew (with_pc t p')), Hp', Hold. simpl.
  unfold process_page.
  destruct (_extract_content html) as [content|];
    [|by apply submseteq_app, submseteq_cons].
  case_bool_decide; [by apply submseteq_app, submseteq_cons|].
  case_match; [|by apply submseteq_app, submseteq_cons].
  rewrite fmap_app. simpl. by rewrite <- (assoc_L (++)).
Qed.

Lemma inv_slept (s : session) (i : nat) (t : task) (links : list string) :
  crawl_inv self s → tasks s !! i = Some t → t_pc t = AwaitSleep links →
  crawl_inv self (crawl_slept self i t links s).
Proof.
  intros Hinv Hi Hpc. apply (inv_same_frontier s); try done; simpl.
  - unfold marked_urls. rewrite omap_app. fold (marked_urls (events s)).
    rewrite (marked_spawned _). apply app_nil_r.
  - unfold rendered. rewrite omap_app. fold (rendered (events s)).
    rewrite (rendered_spawned _). apply app_nil_r.
  - unfold owners. simpl.
    destruct (awaiting_insert _ _ _ Hi) as (rest & Hold & Hnew).
    unfold awaiting at 1. rewrite bind_app.
    fold (awaiting (new_task <$> spawn_loop self (visited_urls s) (t_depth t) links)).
    rewrite awaiting_new_tasks, app_nil_r.
    match goal with |- context [with_pc t ?p] => set (p' := p) end.
    assert (Hp' : in_flight (with_pc t p') = []).
    { unfold p'. by destruct (spawn_loop _ _ _ _). }
    fold (awaiting (<[i:=with_pc t p']> (tasks s))).
    rewrite (Hnew (with_pc t p')), Hp', Hold. simpl.
    apply submseteq_app; [done|]. by apply submseteq_inserts_l.
Qed.

Lemma inv_resume (s s' : session) (i : nat) (pb : page_behaviour) :
  crawl_inv self s → resume self i pb s = Some s' → crawl_inv self s'.
Proof.
  intros Hinv. unfold resume.
  destruct (tasks s !! i) as [t|] eqn:Hi; [|done].
  destruct (t_pc t) eqn:Hpc; try done.
  - intros [= <-]. by apply inv_enter.
  - intros [= <-]. by apply inv_rendered.
  - intros [= <-]. by apply inv_slept.
  - unfold crawl_gathered. destruct (first_raised _ _).
    + intros [= <-]. by apply inv_set_pc.
    + case_match; [|done]. intros [= <-]. by apply inv_set_pc.
Qed.

Lemma reachable_inv (base_url : string) (s : session) :
  reachable self base_url s → crawl_inv self s.
Proof.
  unfold reachable. revert s. apply rtc_ind_r.
  - apply inv_init.
  - intros s s' _ [i [pb Hstep]] IH. by eapply inv_resume.
Qed.

Lemma run_schedule_reachable (sched : list (nat * page_behaviour))
    (s s' : session) (base_url : string) :
  reachable self base_url s → run_schedule self sched s = Some s' →
  reachable self base_url s'.
Proof.
  revert s. induction sched as [|[i pb] sched IH]; intros s Hr; simpl.
  - by intros [= <-].
  - destruct (resume self i pb s) as [s1|] eqn:Hstep; [|done].
    apply IH. eapply rtc_r; [exact Hr | by exists i, pb].
Qed.

End CrawlProps.

Section CrawlClaims.
Context `{Libraries}.
Variable self : RufusClient.

Lemma results_within_visited (base_url : string) (s : session) :
  reachable self base_url s →
  NoDup (results s).*1 ∧ (length (results s) ≤ size (visited_urls s))%nat.
Proof.
  intros [_ _ _ _ Hnd Hvis _]%reachable_inv. unfold owners in *.
  apply NoDup_app in Hnd as [Hnd _]. split; [done|].
  rewrite <- (length_fmap fst), <- (size_list_to_set (C := gset string)) by done.
  apply subseteq_size. intros u Hu%elem_of_list_to_set.
  apply Hvis, elem_of_app. by left.
Qed.

(** C1: at every point of a crawl, under any interleaving of the node
    expansions, no URL has been added to the visited set twice and no URL
    stands twice in the results; the renders issued are, in order, those of
    the URLs marked. A node that starts runs its membership test, its
    marking and the call of the render in one uninterrupted step. *)
Theorem C1_dedup_under_interleaving (base_url : string) (s : session) :
  reachable self base_url s →
  NoDup (marked_urls (events s)) ∧
  NoDup (results s).*1 ∧
  (rendered (events s)).*1 = marked_urls (events s) ∧
  (∀ u, u ∈ marked_urls (events s) ↔ u ∈ visited_urls s) ∧
  ∀ i t pb s',
    tasks s !! i = Some t → t_pc t = Created → resume self i pb s = Some s' →
    (tasks s' !! i = Some (with_pc t Returned) ∧
     visited_urls s' = visited_urls s ∧ events s' = events s)
    ∨
    (tasks s' !! i = Some (with_pc t AwaitRender) ∧
     (t_url t ∉ visited_urls s) ∧
     visited_urls s' = {[t_url t]} ∪ visited_urls s ∧
     events s' = events s ++ [Marked (t_url t); RenderIssued (t_url t) (t_depth t)]).
Proof.
  intros Hr. destruct (reachable_inv _ _ _ Hr) as [I1 I2 I3 _ _ _ _].
  split; [done|]. split; [by eapply results_within_visited|].
  split; [done|]. split; [done|].
  intros i t pb s' Hi Hpc. unfold resume. rewrite Hi, Hpc. intros [= <-].
  assert (Hlt : (i < length (tasks s))%nat) by by eapply lookup_lt_Some.
  unfold crawl_enter, crawl_guard.
  destruct (max_depth self <? t_depth t);
    [left; simpl; by rewrite list_lookup_insert_eq|].
  case_bool_decide as Hvis; [left; simpl; by rewrite list_lookup_insert_eq|].
  destruct (max_pages self <=? Z.of_nat (size (visited_urls s)));
    [left; simpl; by rewrite list_lookup_insert_eq|].
  right. simpl. by rewrite list_lookup_insert_eq.
Qed.

(** C2, as the code has it: in a crawl whose [max_pages] is not negative,
    at every point the results are at most as many as the visited URLs,
    which are at most [max_pages]; so it is for the sequence [run] returns. *)
Theorem C2_results_visited_budget (base_url : string) (s : session) :
  0 ≤ max_pages self →
  reachable self base_url s →
  ((length (results s) ≤ size (visited_urls s))%nat ∧
   Z.of_nat (size (visited_urls s)) ≤ max_pages self) ∧
  ∀ res, run_result s = Some (inr res) →
         (length res ≤ size (visited_urls s))%nat ∧
         Z.of_nat (length res) ≤ max_pages self.
Proof.
  intros Hp Hr.
  destruct (results_within_visited _ _ Hr) as [_ Hlen].
  destruct (reachable_inv _ _ _ Hr) as [_ _ _ _ _ _ Hb]. specialize (Hb Hp).
  split; [done|]. intros res. unfold run_result.
  destruct (tasks s !! 0%nat) as [t|]; [|done].
  destruct (t_pc t); try done. intros [= <-]. split; [done | lia].
Qed.

(** C9: the head of [_crawl] answers [DepthExceeded] exactly when the
    depth is above [max_depth], else [AlreadyVisited] exactly when the URL
    is in the visited set, else [BudgetReached] exactly when the visited
    set has reached [max_pages]. In these three cases the node returns and
    the visited set, the results and the record of marks, renders and
    spawns stay as they were. At every point of a crawl every render was
    issued for a node of depth at most [max_depth]. *)
Theorem C9_guard_order (visited : gset string) (url : string) (depth : Z) :
  (crawl_guard self visited url depth = DepthExceeded ↔ max_depth self < depth) ∧
  (crawl_guard self visited url depth = AlreadyVisited ↔
     depth ≤ max_depth self ∧ url ∈ visited) ∧
  (crawl_guard self visited url depth = BudgetReached ↔
     depth ≤ max_depth self ∧ (url ∉ visited) ∧
     max_pages self ≤ Z.of_nat (size visited)) ∧
  (∀ i t s,
     t_url t = url → t_depth t = depth → visited_urls s = visited →
     crawl_guard self visited url depth ≠ Proceed →
     let s' := crawl_enter self i t s in
     visited_urls s' = visited_urls s ∧ results s' = results s ∧
     events s' = events s ∧ tasks s' = <[i := with_pc t Returned]> (tasks s)) ∧
  (∀ base_url s, reachable self base_url s →
     ∀ u d, (u, d) ∈ rendered (events s) → d ≤ max_depth self).
Proof.
  split; [|split; [|split; [|split]]].
  - unfold crawl_guard. destruct (Z.ltb_spec (max_depth self) depth);
      [done|]. repeat case_match; split; (done || lia).
  - unfold crawl_guard. destruct (Z.ltb_spec (max_depth self) depth);
      [split; [done | lia]|].
    case_bool_decide; [done|]. case_match; split; (done || tauto).
  - unfold crawl_guard. destruct (Z.ltb_spec (max_depth self) depth);
      [split; [done | lia]|].
    case_bool_decide; [split; [done | tauto]|].
    destruct (Z.leb_spec (max_pages self) (Z.of_nat (size visited)));
      [done | split; [done | lia]].
  - intros i t s <- <- <- Hstop s'. unfold s', crawl_enter.
    by destruct (crawl_guard self (visited_urls s) (t_url t) (t_depth t)).
  - intros base_url s Hr. by destruct (reachable_inv _ _ _ Hr).
Qed.

End CrawlClaims.

Section BudgetClaims.
Context `{Libraries}.
Variable self : RufusClient.

Lemma spawn_loop_budget (visited : gset string) (depth : Z) (links : list string) :
  spawn_loop self visited depth links =
  if max_pages self <=? Z.of_nat (size visited) then []
  else (λ link, (link, depth + 1)) <$> links.
Proof.
  induction links as [|link links IH]; simpl.
  - by case_match.
  - rewrite IH. by case_match.
Qed.

Lemma lone_seed_reachable (base_url : string) (s : session) :
  max_pages self = 1 → 0 ≤ max_depth self →
  reachable self base_url s → lone_seed base_url s.
Proof.
  intros Hp Hd. unfold reachable. revert s. apply rtc_ind_r.
  - exists {| t_url := base_url; t_depth := 0; t_pc := Created |}. by simpl.
  - intros s s' _ [i [pb Hstep]] (t & Hts & Hu & Hdepth & Hsp & Hpc).
    unfold resume in Hstep. rewrite Hts in Hstep.
    destruct i as [|i]; [|done]. simpl in Hstep.
    destruct (t_pc t) eqn:Ht; try done.
    + destruct Hpc as [Hv Hr]. injection Hstep as <-.
      unfold crawl_enter, crawl_guard. rewrite Hv, Hp, Hdepth, size_empty.
      destruct (Z.ltb_spec (max_depth self) 0); [lia|].
      rewrite bool_decide_eq_false_2 by apply not_elem_of_empty. simpl.
      exists (with_pc t AwaitRender). rewrite Hts, Hu. simpl.
      split; [done|]. split; [done|]. split; [done|].
      unfold spawned, rendered in *. rewrite !omap_app, Hsp, Hr. simpl.
      split; [done|]. split; [|done]. apply (right_id_L ∅ (∪)).
    + destruct Hpc as [Hv Hr]. injection Hstep as <-.
      unfold crawl_rendered.
      destruct (_render_page (browser s) pb) as [e | html]; simpl.
      * exists (with_pc t (Raised (UnboundLocalError "html"))).
        simpl. rewrite Hts. by simpl.
      * eexists (with_pc t _). rewrite Hts. simpl.
        split; [done|]. split; [done|]. split; [done|]. split; [done|].
        by destruct (_extract_links html (t_url t)).
    + destruct Hpc as [Hv Hr]. injection Hstep as <-.
      unfold crawl_slept. rewrite spawn_loop_budget, Hv, Hp, size_singleton.
      simpl. exists (with_pc t Returned). rewrite Hts. simpl.
      split; [done|]. split; [done|]. split; [done|].
      by rewrite !app_nil_r.
Qed.

Lemma guard_seed (base_url : string) :
  max_pages self = 1 → 0 ≤ max_depth self →
  crawl_guard self ∅ base_url 0 = Proceed.
Proof.
  intros Hp Hd. unfold crawl_guard. rewrite Hp, size_empty.
  destruct (Z.ltb_spec (max_depth self) 0); [lia|].
  by rewrite bool_decide_eq_false_2 by apply not_elem_of_empty.
Qed.

Lemma lone_seed_terminates (base_url : string) (pb : page_behaviour) :
  max_pages self = 1 → 0 ≤ max_depth self →
  ∃ sched s, (∀ x, x ∈ sched → x = (0%nat, pb)) ∧
             run_schedule self sched (scrape_init base_url) = Some s ∧
             is_Some (run_result s).
Proof.
  intros Hp Hd.
  assert (Henter : resume self 0 pb (scrape_init base_url) =
    Some {| browser := true; visited_urls := {[base_url]} ∪ ∅; results := [];
            tasks := [ {| t_url := base_url; t_depth := 0; t_pc := AwaitRender |} ];
            events := [Marked base_url; RenderIssued base_url 0] |}).
  { unfold resume, crawl_enter. simpl. by rewrite guard_seed. }
  destruct (_render_page true pb) as [e | html] eqn:Hrender.
  - eexists [(0%nat, pb); (0%nat, pb)], _. split; [|split].
    + intros x. rewrite !elem_of_cons. intros [->|[->|?%elem_of_nil]]; done.
    + cbn [run_schedule]. rewrite Henter.
      unfold resume, crawl_rendered. simpl. rewrite Hrender. reflexivity.
    + by eexists.
  - destruct (_extract_links html base_url) as [e | links] eqn:Hlinks.
    + eexists [(0%nat, pb); (0%nat, pb)], _. split; [|split].
      * intros x. rewrite !elem_of_cons. intros [->|[->|?%elem_of_nil]]; done.
      * cbn [run_schedule]. rewrite Henter.
        unfold resume, crawl_rendered. simpl. rewrite Hrender, Hlinks. reflexivity.
      * by eexists.
    + eexists [(0%nat, pb); (0%nat, pb); (0%nat, pb)], _. split; [|split].
      * intros x. rewrite !elem_of_cons. intros [->|[->|[->|?%elem_of_nil]]]; done.
      * cbn [run_schedule]. rewrite Henter.
        unfold resume at 1, crawl_rendered. simpl. rewrite Hrender, Hlinks.
        unfold resume, crawl_slept. simpl.
        rewrite spawn_loop_budget, Hp, (right_id_L ∅ (∪)), size_singleton.
        reflexivity.
      * by eexists.
Qed.

(** C6, as the code has it: the budget test stands in front of every spawn,
    so a node whose visited set has reached [max_pages] spawns nothing,
    whatever links it found. In a crawl with [max_pages = 1] and
    [max_depth >= 0] no child is ever spawned, the seed's task stays the only
    one, at most the seed is rendered, and when the crawl is over exactly
    the seed has been rendered, once; and every such crawl does end. *)
Theorem C6_budget_stops_spawning :
  (∀ visited depth links,
     spawn_loop self visited depth links =
     if max_pages self <=? Z.of_nat (size visited) then []
     else (λ link, (link, depth + 1)) <$> links) ∧
  (max_pages self = 1 → 0 ≤ max_depth self →
   (∀ base_url s, reachable self base_url s →
      spawned (events s) = [] ∧ length (tasks s) = 1%nat ∧
      (rendered (events s) = [] ∨ rendered (events s) = [(base_url, 0)]) ∧
      (is_Some (run_result s) → rendered (events s) = [(base_url, 0)])) ∧
   (∀ base_url pb, ∃ sched s,
      (∀ x, x ∈ sched → x = (0%nat, pb)) ∧
      run_schedule self sched (scrape_init base_url) = Some s ∧
      is_Some (run_result s))).
Proof.
  split; [apply spawn_loop_budget|]. intros Hp Hd. split.
  - intros base_url s Hr.
    destruct (lone_seed_reachable _ _ Hp Hd Hr) as (t & Hts & _ & _ & Hsp & Hpc).
    split; [done|]. split; [by rewrite Hts|]. unfold run_result. rewrite Hts. simpl.
    destruct (t_pc t); try done; destruct Hpc as [_ ->]; split;
      (by left) || (by right) || done || (by intros [? ?]).
  - intros base_url pb. by apply lone_seed_terminates.
Qed.

End BudgetClaims.

(** ** Concrete crawls *)

Section Runs.
Import Toy.

Lemma schedule_reachable (self : RufusClient) (base_url : string)
    (sched : list (nat * page_behaviour)) (s : session) :
  run_schedule self sched (scrape_init base_url) = Some s →
  reachable self base_url s.
Proof. apply run_schedule_reachable. apply rtc_refl. Qed.

Lemma navigation_final_reachable : reachable faq_client seed navigation_final.
Proof. by apply (schedule_reachable _ _ failing_navigation_run). Qed.

Lemma one_page_final_reachable : reachable one_page_client seed one_page_final.
Proof.
  by apply (schedule_reachable _ _
    [ (0%nat, loads seed_page); (0%nat, loads seed_page); (0%nat, loads seed_page) ]).
Qed.

(** A render that fails at navigation is recovered inside [_render_page]:
    the node goes on with empty HTML and the crawl returns its results. *)
Lemma navigation_failure_recovered :
  run_result navigation_final =
  Some (inr [("http://site/", "Welcome to our FAQ page");
             ("http://site/a", "All FAQ answers")]).
Proof. reflexivity. Qed.

(** Whatever the node, a render that raises outside the [try] of
    [_render_page] leaves the task with an [UnboundLocalError]. *)
Lemma setup_failure_raises `{Libraries} (self : RufusClient) (i : nat) (t : task)
    (pb : page_behaviour) (s : session) :
  tasks s !! i = Some t → t_pc t = AwaitRender → browser s = true →
  setup_raises pb = true →
  ∃ s', resume self i pb s = Some s' ∧
        tasks s' !! i = Some (with_pc t (Raised (UnboundLocalError "html"))) ∧
        results s' = results s.
Proof.
  intros Hi Hpc Hb Hsetup. unfold resume, crawl_rendered, _render_page.
  rewrite Hi, Hpc, Hb, Hsetup. simpl. eexists. split; [done|].
  split; [|done]. apply list_lookup_insert_eq. by eapply lookup_lt_Some.
Qed.

(** C5, where the code departs from it: the seed and [http://site/a] are
    accepted, the browser fails to open a page for [http://site/b], and
    [run] ends with the [UnboundLocalError] of that node instead of
    returning the two results gathered. *)
Theorem C5_setup_failure_aborts_crawl :
  ∃ s, run_schedule faq_client failing_setup_run (scrape_init seed) = Some s ∧
       results s = [("http://site/", "Welcome to our FAQ page");
                    ("http://site/a", "All FAQ answers")] ∧
       t_pc <$> tasks s = [Raised (UnboundLocalError "html"); Returned;
                           Raised (UnboundLocalError "html")] ∧
       run_result s = Some (inl (UnboundLocalError "html")).
Proof. eexists. split; [vm_compute; reflexivity|]. by vm_compute. Qed.

(** C4 fails on the code: with a valid key the constructor accepts
    [max_depth = -1], [max_pages = 0] and a threshold of 2, and with the
    threshold of 2 alone the crawl goes on to render the seed. *)
Lemma C4_counterexample :
  (∃ self, __init__ (Some "secret") "secret" "find the FAQ" None (-1) 0 (2 # 1)%Q
           = inr self ∧
           max_depth self = -1 ∧ max_pages self = 0 ∧
           similarity_threshold self = (2 # 1)%Q) ∧
  (∃ self s, __init__ (Some "secret") "secret" "find the FAQ" None 0 1 (2 # 1)%Q
             = inr self ∧
             run_schedule self [(0%nat, loads seed_page)] (scrape_init seed) = Some s ∧
             rendered (events s) = [(seed, 0)]).
Proof.
  split.
  - eexists. split; [vm_compute; reflexivity|]. by vm_compute.
  - eexists _, _. split; [vm_compute; reflexivity|].
    split; [vm_compute; reflexivity|]. by vm_compute.
Qed.

(** C2 fails on the code for a negative [max_pages]: the crawl returns at
    once with nothing visited, and 0 is above [max_pages = -1]. *)
Lemma C2_counterexample :
  ∃ s, reachable (client (Some ["FAQ"]) 2 (-1) (3 # 10)%Q) seed s ∧
       run_result s = Some (inr []) ∧
       size (visited_urls s) = 0%nat ∧
       ¬ (Z.of_nat (size (visited_urls s))
          ≤ max_pages (client (Some ["FAQ"]) 2 (-1) (3 # 10)%Q)).
Proof.
  eexists. split.
  - apply (schedule_reachable _ _ [(0%nat, loads seed_page)]).
    vm_compute. reflexivity.
  - split; [by vm_compute|]. split; [by vm_compute|]. by vm_compute.
Qed.

(** C6 fails on the code for a negative [max_depth]: with [max_pages = 1]
    and a seed page that has two links, the crawl ends without any render. *)
Lemma C6_counterexample :
  max_pages (client (Some ["FAQ"]) (-1) 1 (3 # 10)%Q) = 1 ∧
  _extract_links seed_page seed = inr ["http://site/a"; "http://site/b"] ∧
  ∃ s, reachable (client (Some ["FAQ"]) (-1) 1 (3 # 10)%Q) seed s ∧
       run_result s = Some (inr []) ∧
       rendered (events s) = [].
Proof.
  split; [done|]. split; [by vm_compute|].
  eexists. split.
  - apply (schedule_reachable _ _ [(0%nat, loads seed_page)]).
    vm_compute. reflexivity.
  - split; by vm_compute.
Qed.

End Runs.

(** ** The theorems at work on the concrete crawls *)

Section Witnesses.
Import Toy.

Lemma C1_witness :
  reachable faq_client seed navigation_final ∧
  (NoDup (marked_urls (events navigation_final)) ∧
   NoDup (results navigation_final).*1 ∧
   (rendered (events navigation_final)).*1 = marked_urls (events navigation_final) ∧
   (∀ u, u ∈ marked_urls (events navigation_final) ↔ u ∈ visited_urls navigation_final) ∧
   ∀ i t pb s',
     tasks navigation_final !! i = Some t → t_pc t = Created →
     resume faq_client i pb navigation_final = Some s' →
     (tasks s' !! i = Some (with_pc t Returned) ∧
      visited_urls s' = visited_urls navigation_final ∧
      events s' = events navigation_final)
     ∨
     (tasks s' !! i = Some (with_pc t AwaitRender) ∧
      (t_url t ∉ visited_urls navigation_final) ∧
      visited_urls s' = {[t_url t]} ∪ visited_urls navigation_final ∧
      events s' = events navigation_final
                  ++ [Marked (t_url t); RenderIssued (t_url t) (t_depth t)])).
Proof.
  split; [exact navigation_final_reachable|].
  exact (@C1_dedup_under_interleaving libs faq_client seed navigation_final
           navigation_final_reachable).
Defined.

Lemma C2_witness :
  0 ≤ max_pages faq_client ∧
  reachable faq_client seed navigation_final ∧
  (((length (results navigation_final) ≤ size (visited_urls navigation_final))%nat ∧
    Z.of_nat (size (visited_urls navigation_final)) ≤ max_pages faq_client) ∧
   ∀ res, run_result navigation_final = Some (inr res) →
          (length res ≤ size (visited_urls navigation_final))%nat ∧
          Z.of_nat (length res) ≤ max_pages faq_client).
Proof.
  assert (Hp : 0 ≤ max_pages faq_client) by (simpl; lia).
  split; [exact Hp|]. split; [exact navigation_final_reachable|].
  exact (@C2_results_visited_budget libs faq_client seed navigation_final Hp
           navigation_final_reachable).
Defined.

Lemma C7_witness :
  word_tokenize (str_lower "Find information about wikipedia FAQ")
  = Some ["find"; "information"; "about"; "wikipedia"; "faq"] ∧
  stopwords_english
  = Some ["a"; "about"; "an"; "and"; "for"; "in"; "of"; "the"; "to"] ∧
  (let toks :=
     filtered_tokens ["a"; "about"; "an"; "and"; "for"; "in"; "of"; "the"; "to"]
                     ["find"; "information"; "about"; "wikipedia"; "faq"] in
   (∀ w, w ∈ toks ↔
         w ∈ ["find"; "information"; "about"; "wikipedia"; "faq"] ∧
         str_isalpha w = true ∧
         w ∉ ["a"; "about"; "an"; "and"; "for"; "in"; "of"; "the"; "to"]) ∧
   (∃ ranked,
      extract_keywords "Find information about wikipedia FAQ" 2
      = take (Z.to_nat 2) ranked ∧
      NoDup ranked ∧
      (∀ w, w ∈ ranked ↔ w ∈ toks) ∧
      (∀ i j a b, (i < j)%nat → ranked !! i = Some a → ranked !! j = Some b →
                  ranks_before toks a b)) ∧
   (toks = [] → extract_keywords "Find information about wikipedia FAQ" 2 = [])).
Proof.
  split; [reflexivity|]. split; [reflexivity|].
  apply (@C7_extract_keywords_top_k libs "Find information about wikipedia FAQ" 2
           ["find"; "information"; "about"; "wikipedia"; "faq"]
           ["a"; "about"; "an"; "and"; "for"; "in"; "of"; "the"; "to"]);
    reflexivity.
Defined.

Lemma C8_witness :
  similarity_of "<unencodable>" "find the FAQ" = None ∧
  (compute_similarity "<unencodable>" "find the FAQ" (Some ["FAQ"]) (3 # 10)%Q = false ∧
   ∀ (self : RufusClient) (i : nat) (t : task) (pb : page_behaviour)
     (s : session) (html : string),
     instructions self = "find the FAQ" →
     _render_page (browser s) pb = inr html →
     _extract_content html = Some "<unencodable>" →
     results (crawl_rendered self i t pb s) = results s ∧
     ∀ links, _extract_links html (t_url t) = inr links →
       tasks (crawl_rendered self i t pb s)
       = <[i := with_pc t (AwaitSleep links)]> (tasks s)).
Proof.
  split; [reflexivity|].
  apply (@C8_scoring_failure_skips_page libs "<unencodable>" "find the FAQ"
           (Some ["FAQ"]) (3 # 10)%Q).
  reflexivity.
Defined.

Lemma C10_witness :
  __init__ (Some "secret") "secret" "find the FAQ" (Some []) 2 50 (1 # 2)%Q
  = inr (client (Some ["find"; "faq"]) 2 50 (1 # 2)%Q) ∧
  (keywords (client (Some ["find"; "faq"]) 2 50 (1 # 2)%Q)
   = Some (extract_keywords "find the FAQ" 5) ∧
   (extract_keywords "find the FAQ" 5 ≠ [] →
    ∀ content,
      compute_similarity content
        (instructions (client (Some ["find"; "faq"]) 2 50 (1 # 2)%Q))
        (keywords (client (Some ["find"; "faq"]) 2 50 (1 # 2)%Q))
        (similarity_threshold (client (Some ["find"; "faq"]) 2 50 (1 # 2)%Q)) = true →
      ∃ k, k ∈ extract_keywords "find the FAQ" 5 ∧
           PyStr.occurs_in (str_lower k) (str_lower content))).
Proof.
  split; [reflexivity|].
  apply (@C10_empty_keywords_replaced libs (Some "secret") "secret" "find the FAQ" 2 50
           (1 # 2)%Q).
  reflexivity.
Defined.

End Witnesses.

Section NestedWitnesses.
Import Toy.

Lemma C6_witness :
  max_pages one_page_client = 1 ∧ 0 ≤ max_depth one_page_client ∧
  reachable one_page_client seed one_page_final ∧
  (spawned (events one_page_final) = [] ∧
   length (tasks one_page_final) = 1%nat ∧
   (rendered (events one_page_final) = [] ∨
    rendered (events one_page_final) = [(seed, 0)]) ∧
   (is_Some (run_result one_page_final) →
    rendered (events one_page_final) = [(seed, 0)])).
Proof.
  assert (Hp : max_pages one_page_client = 1) by reflexivity.
  assert (Hd : 0 ≤ max_depth one_page_client) by (simpl; lia).
  split; [exact Hp|]. split; [exact Hd|].
  split; [exact one_page_final_reachable|].
  exact (proj1 (proj2 (@C6_budget_stops_spawning libs one_page_client) Hp Hd)
           seed one_page_final one_page_final_reachable).
Defined.

Lemma C9_witness :
  reachable faq_client seed navigation_final ∧
  ∀ u d, (u, d) ∈ rendered (events navigation_final) → d ≤ max_depth faq_client.
Proof.
  split; [exact navigation_final_reachable|].
  exact (proj2 (proj2 (proj2 (proj2
           (@C9_guard_order libs faq_client ∅ seed 0))))
           seed navigation_final navigation_final_reachable).
Defined.

End NestedWitnesses.

(** * Further properties of the code *)

(** ** Keywords and scoring *)

Section MoreScorer.
Context `{Libraries}.

Lemma extract_keywords_ranked (instr : string) (k : Z)
    (tokens stop_words : list string) :
  word_tokenize (str_lower instr) = Some tokens →
  stopwords_english = Some stop_words →
  extract_keywords instr k =
  take (Z.to_nat k)
       (PyCounter.sorted_desc
          (PyCounter.Counter (filtered_tokens stop_words tokens))).*1.
Proof.
  intros Htok Hstop. unfold extract_keywords. rewrite Htok, Hstop. simpl.
  by rewrite most_common_take, fmap_take.
Qed.

Lemma ranking_keys (toks : list string) :
  (PyCounter.sorted_desc (PyCounter.Counter toks)).*1 ≡ₚ (PyCounter.Counter toks).*1.
Proof. by rewrite sorted_desc_perm. Qed.

(** X1: whatever the libraries do, [extract_keywords] gives at most
    [num_keywords] keywords, none twice, each an alphabetic token of the
    lowercased instructions that is no stop word; it gives none when
    [num_keywords <= 0] and when NLTK raises. *)
Theorem extract_keywords_bounds (instr : string) (k : Z) :
  (length (extract_keywords instr k) ≤ Z.to_nat k)%nat ∧
  NoDup (extract_keywords instr k) ∧
  (∀ w, w ∈ extract_keywords instr k →
        str_isalpha w = true ∧
        (∃ tokens, word_tokenize (str_lower instr) = Some tokens ∧ w ∈ tokens) ∧
        (∃ stop_words, stopwords_english = Some stop_words ∧ w ∉ stop_words)) ∧
  (k ≤ 0 → extract_keywords instr k = []) ∧
  (word_tokenize (str_lower instr) = None ∨ stopwords_english = None →
   extract_keywords instr k = []).
Proof.
  destruct (word_tokenize (str_lower instr)) as [tokens|] eqn:Htok;
    [destruct stopwords_english as [stop_words|] eqn:Hstop|].
  - rewrite (extract_keywords_ranked _ _ _ _ Htok Hstop).
    destruct (Counter_ok (filtered_tokens stop_words tokens)) as [Hnd Hkeys _ _].
    split; [rewrite length_take; lia|]. split; [|split; [|split]].
    + apply (sublist_NoDup _ _ (proj2 (NoDup_Permutation_proper _ _ (ranking_keys _)) Hnd)).
      apply sublist_take.
    + intros w Hw%subseteq_take. rewrite ranking_keys in Hw.
      apply Hkeys, filtered_tokens_elem in Hw as (Hin & Halpha & Hstopw).
      split; [done|]. split; [by exists tokens | by exists stop_words].
    + intros Hk. assert (Z.to_nat k = 0%nat) as -> by lia. done.
    + by intros [? | ?].
  - assert (Hnil : extract_keywords instr k = []).
    { unfold extract_keywords. by rewrite Htok, Hstop. }
    rewrite Hnil. split; [simpl; lia|]. split; [constructor|].
    split; [by intros w ?%elem_of_nil|]. done.
  - assert (Hnil : extract_keywords instr k = []).
    { unfold extract_keywords. by rewrite Htok. }
    rewrite Hnil. split; [simpl; lia|]. split; [constructor|].
    split; [by intros w ?%elem_of_nil|]. done.
Qed.

(** X2: asking for more keywords only adds keywords at the end: the
    answer for [k] is a prefix of the answer for any [k' >= k]. *)
Theorem extract_keywords_prefix (instr : string) (k k' : Z) :
  k ≤ k' → extract_keywords instr k `prefix_of` extract_keywords instr k'.
Proof.
  intros Hk.
  destruct (word_tokenize (str_lower instr)) as [tokens|] eqn:Htok;
    [destruct stopwords_english as [stop_words|] eqn:Hstop|].
  - rewrite !(extract_keywords_ranked _ _ _ _ Htok Hstop).
    set (ranked := (PyCounter.sorted_desc _).*1).
    replace (take (Z.to_nat k) ranked)
      with (take (Z.to_nat k) (take (Z.to_nat k') ranked)).
    + apply prefix_take.
    + rewrite take_take. f_equal. lia.
  - unfold extract_keywords. by rewrite Htok, Hstop.
  - unfold extract_keywords. by rewrite Htok.
Qed.

(** X3: keywords can only make the scorer stricter. A page accepted under
    any keyword argument is accepted without keywords, and a page accepted
    under a non-empty keyword list stays accepted when keywords are added. *)
Theorem keywords_only_restrict (content instr : string) (thr : score) :
  (∀ kws, compute_similarity content instr kws thr = true →
          compute_similarity content instr None thr = true ∧
          compute_similarity content instr (Some []) thr = true) ∧
  (∀ ks ks' : list string, ks ≠ [] → ks ⊆ ks' →
     compute_similarity content instr (Some ks) thr = true →
     compute_similarity content instr (Some ks') thr = true).
Proof.
  split.
  - intros kws [Hsim _]%accepted_iff.
    split; apply accepted_iff; (split; [done | by left]).
  - intros ks ks' Hne Hsub [Hsim [Hnil | (k & Hin & Hocc)]]%accepted_iff; [done|].
    apply accepted_iff. split; [done|]. right. exists k. split; [|done].
    simpl in *. by apply Hsub.
Qed.

(** X4: the scorer reads a keyword only through its lowercase form: two
    keyword lists that agree after lowercasing give the same verdict. *)
Theorem keyword_case_is_irrelevant (content instr : string)
    (ks ks' : list string) (thr : score) :
  str_lower <$> ks = str_lower <$> ks' →
  compute_similarity content instr (Some ks) thr =
  compute_similarity content instr (Some ks') thr.
Proof.
  intros Heq.
  assert (Hocc : ∀ l : list string,
    (∃ k, k ∈ l ∧ PyStr.occurs_in (str_lower k) (str_lower content)) ↔
    (∃ x, x ∈ str_lower <$> l ∧ PyStr.occurs_in x (str_lower content))).
  { intros l. split.
    - intros (k & Hin & Hk). exists (str_lower k).
      split; [by apply list_elem_of_fmap_2 | done].
    - intros (x & (k & -> & Hin)%list_elem_of_fmap & Hk). by exists k. }
  assert (Hnil : ks = [] ↔ ks' = []).
  { split; intros ->; [symmetry in Heq|]; by apply fmap_nil_inv in Heq. }
  apply eq_true_iff_eq. rewrite !accepted_iff. simpl.
  by rewrite !Hocc, Heq, Hnil.
Qed.

(** X5: how the constructor settles the keywords. A non-empty list of the
    caller is kept as it is; [None] and [[]] are replaced by the keywords
    of the instructions, and when the instructions yield none the client
    accepts a page on its similarity alone. *)
Theorem constructor_keywords (getenv_key : option string) (key instr : string)
    (kws : option (list string)) (depth pages : Z) (thr : score)
    (self : RufusClient) :
  __init__ getenv_key key instr kws depth pages thr = inr self →
  (truthy kws = true → keywords self = kws) ∧
  (truthy kws = false → keywords self = Some (extract_keywords instr 5)) ∧
  (truthy kws = false → extract_keywords instr 5 = [] →
   ∀ content,
     compute_similarity content (instructions self) (keywords self)
                        (similarity_threshold self) = true ↔
     ∃ sim, similarity_of content instr = Some sim ∧ score_gt sim thr = true).
Proof.
  unfold __init__. case_match; [|done]. intros [= <-]. simpl.
  split; [by intros ->|]. split; [by intros ->|].
  intros -> -> content. rewrite accepted_iff. simpl. split.
  - by intros [? _].
  - intros ?. split; [done | by left].
Qed.

End MoreScorer.

(** ** Link extraction *)

Section MoreLinks.
Context `{Libraries}.

Lemma valid_url_scheme (u : string) :
  _is_valid_url u = Some true ↔
  ∃ scheme, urlparse_scheme u = Some scheme ∧ scheme ∈ ["http"; "https"].
Proof.
  unfold _is_valid_url. destruct (urlparse_scheme u) as [scheme|].
  - split.
    + intros [= Hs%bool_decide_eq_true]. by exists scheme.
    + intros (? & [= <-] & Hs). by rewrite bool_decide_eq_true_2.
  - split; [done | by intros (? & ? & _)].
Qed.

Lemma links_loop_spec (current_url : string) (hrefs : list string)
    (acc : gset string) :
  match links_loop current_url hrefs acc with
  | Some links =>
      (∀ href, href ∈ hrefs → ¬ href_raises current_url href) ∧
      ∀ u, u ∈ links ↔
           u ∈ acc ∨ ∃ href, href ∈ hrefs ∧ kept_link current_url href u
  | None => ∃ href, href ∈ hrefs ∧ href_raises current_url href
  end.
Proof.
  revert acc. induction hrefs as [|href rest IH]; intros acc; cbn [links_loop].
  - split; [by intros href ?%elem_of_nil|].
    intros u. split; [by left | intros [? | (? & ?%elem_of_nil & _)]; done].
  - assert (Hres : resolve_href current_url href =
                   match urlparse_scheme href with
                   | None => None
                   | Some scheme =>
                       if bool_decide (scheme ∈ ["http"; "https"]) then Some href
                       else urljoin current_url href
                   end) by done.
    destruct (urlparse_scheme href) as [scheme|].
    2: { exists href. split; [by left | by left]. }
    destruct (if bool_decide (scheme ∈ ["http"; "https"]) then Some href
              else urljoin current_url href) as [full_url|].
    2: { exists href. split; [by left | by left]. }
    destruct (_is_valid_url full_url) as [[|]|] eqn:Hvalid.
    + specialize (IH ({[full_url]} ∪ acc)).
      destruct (links_loop current_url rest ({[full_url]} ∪ acc)) as [links|].
      * destruct IH as [Hok Hlinks]. split.
        -- intros h [-> | Hin]%elem_of_cons; [|by apply Hok].
           intros [Hr | (u & Hr & Hu)]; congruence.
        -- intros u. rewrite Hlinks, elem_of_union, elem_of_singleton. split.
           ++ intros [[-> | Hacc] | (h & Hin & Hk)].
              ** right. exists href. split; [by left | by split].
              ** by left.
              ** right. exists h. split; [by right | done].
           ++ intros [Hacc | (h & [-> | Hin]%elem_of_cons & Hk)].
              ** left. by right.
              ** destruct Hk as [Hr _]. left. left. congruence.
              ** right. by exists h.
      * destruct IH as (h & Hin & Hr). exists h. split; [by right | done].
    + specialize (IH acc).
      destruct (links_loop current_url rest acc) as [links|].
      * destruct IH as [Hok Hlinks]. split.
        -- intros h [-> | Hin]%elem_of_cons; [|by apply Hok].
           intros [Hr | (u & Hr & Hu)]; congruence.
        -- intros u. rewrite Hlinks. split.
           ++ intros [Hacc | (h & Hin & Hk)]; [by left|].
              right. exists h. split; [by right | done].
           ++ intros [Hacc | (h & [-> | Hin]%elem_of_cons & Hk)]; [by left | |].
              ** destruct Hk as [Hr Hv]. congruence.
              ** right. by exists h.
      * destruct IH as (h & Hin & Hr). exists h. split; [by right | done].
    + exists href. split; [by left|]. right. by exists full_url.
Qed.

(** X6: when [_extract_links] returns, its list holds no URL twice and
    exactly the URLs the page's [href]s resolve to whose scheme is http or
    https; an [href] that is itself an http or https URL is in it
    unchanged, never joined to the page's URL. *)
Theorem extract_links_exact (html current_url : string) (links : list string) :
  _extract_links html current_url = inr links →
  ∃ sp, html_parser html = Some sp ∧
        NoDup links ∧
        (∀ u, u ∈ links ↔
              ∃ href, href ∈ find_all_a_href sp ∧ kept_link current_url href u) ∧
        (∀ u, u ∈ links →
              ∃ scheme, urlparse_scheme u = Some scheme ∧
                        scheme ∈ ["http"; "https"]) ∧
        (∀ href scheme, href ∈ find_all_a_href sp →
              urlparse_scheme href = Some scheme → scheme ∈ ["http"; "https"] →
              href ∈ links).
Proof.
  unfold _extract_links. destruct (html_parser html) as [sp|]; [|done].
  pose proof (links_loop_spec current_url (find_all_a_href sp) ∅) as Hspec.
  destruct (links_loop current_url (find_all_a_href sp) ∅) as [set|]; [|done].
  destruct Hspec as [_ Hset]. intros [= <-]. exists sp. split; [done|].
  assert (Hin : ∀ u, u ∈ elements set ↔
            ∃ href, href ∈ find_all_a_href sp ∧ kept_link current_url href u).
  { intros u. rewrite elem_of_elements, Hset. split; [|by right].
    by intros [?%not_elem_of_empty | ?]. }
  split; [apply NoDup_elements|]. split; [exact Hin|]. split.
  - intros u (href & _ & _ & Hv)%Hin. by apply valid_url_scheme.
  - intros href scheme Hhref Hs Hhttp. apply Hin. exists href.
    split; [done|]. split.
    + unfold resolve_href. rewrite Hs. by rewrite bool_decide_eq_true_2.
    + apply valid_url_scheme. by exists scheme.
Qed.

(** X7: [_extract_links] raises exactly when the parser rejects the HTML
    or when [urlparse] or [urljoin] raises for one [href] of the page; a
    single malformed [href] loses the links of the whole page. *)
Theorem extract_links_raises (html current_url : string) :
  (∃ e, _extract_links html current_url = inl e) ↔
  html_parser html = None ∨
  ∃ sp href, html_parser html = Some sp ∧ href ∈ find_all_a_href sp ∧
             href_raises current_url href.
Proof.
  unfold _extract_links. destruct (html_parser html) as [sp|].
  - pose proof (links_loop_spec current_url (find_all_a_href sp) ∅) as Hspec.
    destruct (links_loop current_url (find_all_a_href sp) ∅) as [set|].
    + destruct Hspec as [Hok _]. split; [by intros [e ?]|].
      intros [? | (sp' & href & [= <-] & Hin & Hr)]; [done|].
      by destruct (Hok href Hin).
    + destruct Hspec as (href & Hin & Hr). split; [|by eexists].
      intros _. right. by exists sp, href.
  - split; [by left | by eexists].
Qed.

End MoreLinks.

(** ** The endpoint of api_server.py *)

Section MoreServer.
Context `{Libraries}.

(** X8: the answers of [scrape_data]. A wrong or unset key is answered
    with 401 and no client is built. With the right key the constructor
    never raises; documents are answered with 200, a [ValueError] of the
    crawl with 400, any other exception with 500, and an empty crawl with
    500 as well: the 404 for it is raised inside the [try] and taken by
    [except Exception], so the endpoint never answers 404. *)
Theorem scrape_data_status (getenv_key : option string) (request : ScrapeRequest)
    (x_api_key : string)
    (crawl : RufusClient → string → exn + list (string * string)) :
  let answer := scrape_data getenv_key request x_api_key crawl in
  status_of answer ≠ 404 ∧
  (status_of answer = 401 ↔ getenv_key ≠ Some x_api_key) ∧
  (getenv_key = Some x_api_key →
   ∃ client,
     __init__ getenv_key x_api_key (req_instructions request)
              (req_keywords request) (req_max_depth request)
              (req_max_pages request) (req_similarity_threshold request)
     = inr client ∧
     match crawl client (req_base_url request) with
     | inr [] => answer = HTTPError 500 "An error occurred during scraping."
     | inr docs => answer = Documents docs
     | inl (ValueError msg) => answer = HTTPError 400 msg
     | inl _ => answer = HTTPError 500 "An error occurred during scraping."
     end).
Proof.
  intros answer.
  unfold answer, scrape_data, get_api_key, scrape_body, __init__, _authenticate.
  destruct (decide (getenv_key = Some x_api_key)) as [Hk | Hk].
  - rewrite bool_decide_eq_false_2 by (intros Hne; by apply Hne).
    rewrite (bool_decide_eq_true_2 _ Hk).
    match goal with |- context [crawl ?c _] => set (client := c) end.
    destruct (crawl client (req_base_url request)) as [[]|[]] eqn:Hcrawl; simpl;
      (split; [lia|]; split; [split; [lia | by intros Hne] |];
       intros _; exists client; split; [done|]; by rewrite Hcrawl).
  - rewrite bool_decide_eq_true_2 by congruence. simpl.
    split; [lia|]. split; [done|]. done.
Qed.

End MoreServer.

(** ** More on the crawl engine *)

Section MoreCrawl.
Context `{Libraries}.
Variable self : RufusClient.

Lemma process_page_effect (url html : string) (res : list (string * string)) :
  process_page self url html res = res ∨
  ∃ content, process_page self url html res = res ++ [(url, content)] ∧
             content ≠ "" ∧
             compute_similarity content (instructions self) (keywords self)
                                (similarity_threshold self) = true.
Proof.
  unfold process_page. destruct (_extract_content html) as [content|]; [|by left].
  case_bool_decide as Hc; [by left|].
  destruct (compute_similarity _ _ _ _) eqn:Hs; [|by left].
  right. by exists content.
Qed.

(** What one resumption does to the shared state. *)
Lemma resume_effect (i : nat) (pb : page_behaviour) (s s' : session) :
  resume self i pb s = Some s' →
  visited_urls s ⊆ visited_urls s' ∧
  events s `prefix_of` events s' ∧
  (results s' = results s ∨
   ∃ t content, tasks s !! i = Some t ∧
                results s' = results s ++ [(t_url t, content)] ∧
                content ≠ "" ∧
                compute_similarity content (instructions self) (keywords self)
                                   (similarity_threshold self) = true).
Proof.
  unfold resume. destruct (tasks s !! i) as [t|] eqn:Hi; [|done].
  destruct (t_pc t) eqn:Hpc; try done.
  - intros [= <-]. unfold crawl_enter.
    destruct (crawl_guard _ _ _ _); simpl;
      (split; [set_solver|]; split; [(by apply prefix_app_r) || done | by left]).
  - intros [= <-]. unfold crawl_rendered.
    destruct (_render_page (browser s) pb) as [e | html]; simpl;
      [by (split; [done|]; split; [done | by left])|].
    split; [done|]. split; [done|].
    destruct (process_page_effect (t_url t) html (results s))
      as [-> | (content & -> & Hc & Hs)]; [by left|].
    right. by exists t, content.
  - intros [= <-]. simpl. split; [done|]. split; [by apply prefix_app_r | by left].
  - unfold crawl_gathered. destruct (first_raised _ _).
    + intros [= <-]. simpl. by (split; [done|]; split; [done | by left]).
    + case_match; [|done]. intros [= <-]. simpl.
      by (split; [done|]; split; [done | by left]).
Qed.

(** X9: the session only grows. From any state on, the visited set keeps
    every URL it has, and the results and the record of events keep what
    they hold as a prefix: nothing is ever removed, replaced or reordered. *)
Theorem session_only_grows (s s' : session) :
  rtc (step self) s s' →
  visited_urls s ⊆ visited_urls s' ∧
  results s `prefix_of` results s' ∧
  events s `prefix_of` events s'.
Proof.
  intros Hrtc. induction Hrtc as [s | s s1 s' [i [pb Hstep]] _ IH]; [done|].
  destruct (resume_effect _ _ _ _ Hstep) as (Hv & He & Hr).
  destruct IH as (Hv' & Hr' & He').
  split; [by etrans|]. split; [|by etrans].
  destruct Hr as [Heq | (t & content & _ & Heq & _)].
  - by rewrite <- Heq.
  - etrans; [|exact Hr']. rewrite Heq. by apply prefix_app_r.
Qed.

Lemma reachable_results_sound (base_url : string) (s : session) :
  reachable self base_url s → results_sound self s.
Proof.
  unfold reachable. revert s. apply rtc_ind_r.
  - by intros u content ?%elem_of_nil.
  - intros s s' _ [i [pb Hstep]] IH u content.
    destruct (resume_effect _ _ _ _ Hstep)
      as (_ & _ & [-> | (t & c & _ & -> & Hc & Hs)]); [by apply IH|].
    intros [Hin | [= -> ->]%list_elem_of_singleton]%elem_of_app;
      [by apply (IH u) | done].
Qed.

(** X10: at every point of a crawl, every document of the results is a
    non-empty text that the scorer accepted for the client's instructions,
    keywords and threshold, and its URL is in the visited set and was
    rendered. *)
Theorem results_are_relevant (base_url : string) (s : session)
    (u content : string) :
  reachable self base_url s →
  (u, content) ∈ results s →
  content ≠ "" ∧
  compute_similarity content (instructions self) (keywords self)
                     (similarity_threshold self) = true ∧
  u ∈ visited_urls s ∧
  ∃ d, (u, d) ∈ rendered (events s).
Proof.
  intros Hr Hin.
  destruct (reachable_results_sound _ _ Hr _ _ Hin) as [Hc Hs].
  destruct (reachable_inv _ _ _ Hr) as [_ Hmv Hrm _ _ Hown _].
  assert (Hv : u ∈ visited_urls s).
  { apply Hown. unfold owners. apply elem_of_app. left.
    apply list_elem_of_fmap. by exists (u, content). }
  split; [done|]. split; [done|]. split; [done|].
  apply Hmv in Hv. rewrite <- Hrm in Hv.
  apply list_elem_of_fmap in Hv as ([u' d] & -> & Hd). by exists d.
Qed.

(** X11: the renders of a crawl are as many as its visited URLs, no URL
    is rendered twice, and with [max_pages >= 0] at most [max_pages]
    renders are ever issued. *)
Theorem render_budget (base_url : string) (s : session) :
  reachable self base_url s →
  NoDup (rendered (events s)).*1 ∧
  length (rendered (events s)) = size (visited_urls s) ∧
  (0 ≤ max_pages self → Z.of_nat (length (rendered (events s))) ≤ max_pages self).
Proof.
  intros [Hnd Hmv Hrm _ _ _ Hb]%reachable_inv.
  assert (Hlen : length (rendered (events s)) = size (visited_urls s)).
  { rewrite <- (length_fmap fst), Hrm.
    rewrite <- (size_list_to_set (C := gset string)) by done.
    f_equal. apply set_eq. intros u. by rewrite elem_of_list_to_set, Hmv. }
  split; [by rewrite Hrm|]. split; [done|].
  intros Hp. rewrite Hlen. by apply Hb.
Qed.

End MoreCrawl.

Section DegenerateBounds.
Context `{Libraries}.
Variable self : RufusClient.

Lemma seed_refused (url : string) :
  max_depth self < 0 ∨ max_pages self ≤ 0 →
  crawl_guard self ∅ url 0 ≠ Proceed.
Proof.
  intros Hbad. unfold crawl_guard. rewrite size_empty.
  destruct (Z.ltb_spec (max_depth self) 0); [done|].
  rewrite bool_decide_eq_false_2 by apply not_elem_of_empty.
  destruct (Z.leb_spec (max_pages self) (Z.of_nat 0)); [done | lia].
Qed.

Lemma seed_refused_enter (t : task) (s : session) :
  max_depth self < 0 ∨ max_pages self ≤ 0 →
  visited_urls s = ∅ → t_depth t = 0 →
  crawl_enter self 0 t s = set_pc 0 t Returned s.
Proof.
  intros Hbad Hv Hd. unfold crawl_enter. rewrite Hv, Hd.
  pose proof (seed_refused (t_url t) Hbad) as Hg.
  by destruct (crawl_guard self ∅ (t_url t) 0).
Qed.

(** X12: with [max_depth < 0] or [max_pages <= 0] the crawl does nothing:
    its first resumption ends it with an empty list, and at no point is
    there a mark, a render, a spawn, a result or a second task. *)
Theorem degenerate_bounds_crawl_nothing (base_url : string) :
  max_depth self < 0 ∨ max_pages self ≤ 0 →
  (∀ s, reachable self base_url s →
        events s = [] ∧ results s = [] ∧ visited_urls s = ∅ ∧
        length (tasks s) = 1%nat) ∧
  (∀ pb, ∃ s', resume self 0 pb (scrape_init base_url) = Some s' ∧
               run_result s' = Some (inr [])).
Proof.
  intros Hbad. split.
  - assert (Hinv : ∀ s, reachable self base_url s →
      ∃ t, tasks s = [t] ∧ t_depth t = 0 ∧
           (t_pc t = Created ∨ t_pc t = Returned) ∧
           events s = [] ∧ results s = [] ∧ visited_urls s = ∅).
    { unfold reachable. apply rtc_ind_r.
      - eexists. split; [done|]. split; [done|]. split; [by left|]. done.
      - intros s s' _ [i [pb Hstep]] (t & Hts & Hd & Hpc & He & Hr & Hv).
        unfold resume in Hstep. rewrite Hts in Hstep.
        destruct i as [|i]; [|done]. simpl in Hstep.
        destruct Hpc as [Hpc | Hpc]; rewrite Hpc in Hstep; [|done].
        injection Hstep as <-. rewrite (seed_refused_enter _ _ Hbad Hv Hd).
        exists (with_pc t Returned). simpl. rewrite Hts. simpl.
        split; [done|]. split; [done|]. split; [by right|]. done. }
    intros s (t & Hts & _ & _ & He & Hr & Hv)%Hinv. by rewrite Hts.
  - intros pb. eexists. split; [reflexivity|].
    unfold resume. simpl. rewrite seed_refused_enter; [reflexivity | done..].
Qed.

End DegenerateBounds.

(** ** Progress and termination of the crawl *)

Section Liveness.
Context `{Libraries}.
Variable self : RufusClient.

Lemma lookup_updated (ts : list task) (i j : nat) (t t' : task) (p : pc)
    (children : list (string * Z)) :
  ts !! i = Some t →
  (<[i := with_pc t p]> ts ++ (new_task <$> children)) !! j = Some t' →
  (j = i ∧ t' = with_pc t p) ∨
  (j ≠ i ∧ ts !! j = Some t') ∨
  (∃ c, c ∈ children ∧ t' = new_task c ∧ (length ts ≤ j)%nat).
Proof.
  intros Hi [Hold | [Hlen Hnew]]%lookup_app_Some.
  - apply list_lookup_insert_Some in Hold as [(-> & <- & _) | [Hne Hold]].
    + by left.
    + right. left. by split.
  - right. right. rewrite length_insert in Hlen.
    apply list_lookup_fmap_Some in Hnew as (c & -> & Hc).
    exists c. split; [by eapply list_elem_of_lookup_2 | done].
Qed.











End Liveness.

Section Termination.
Context `{Libraries}.
Variable self : RufusClient.











End Termination.

(** ** Crawls in which nothing raises *)

Section Benign.
Context `{Libraries}.
Variable self : RufusClient.






End Benign.

(** ** The further properties at work on the concrete crawls *)

Section MoreWitnesses.
Import Toy.

Lemma extract_keywords_prefix_witness :
  1 ≤ 3 ∧
  extract_keywords "Find information about wikipedia FAQ" 1
  `prefix_of` extract_keywords "Find information about wikipedia FAQ" 3.
Proof.
  assert (Hk : 1 ≤ 3) by lia. split; [exact Hk|].
  exact (@extract_keywords_prefix libs "Find information about wikipedia FAQ" 1 3 Hk).
Defined.

Lemma keyword_case_is_irrelevant_witness :
  str_lower <$> ["FAQ"] = str_lower <$> ["faq"] ∧
  compute_similarity "Welcome to our FAQ page" "find the FAQ" (Some ["FAQ"]) (3 # 10)%Q =
  compute_similarity "Welcome to our FAQ page" "find the FAQ" (Some ["faq"]) (3 # 10)%Q.
Proof.
  assert (Hl : str_lower <$> ["FAQ"] = str_lower <$> ["faq"]) by reflexivity.
  split; [exact Hl|].
  exact (@keyword_case_is_irrelevant libs "Welcome to our FAQ page" "find the FAQ"
           ["FAQ"] ["faq"] (3 # 10)%Q Hl).
Defined.

Lemma constructor_keywords_witness :
  __init__ (Some "secret") "secret" "find the FAQ" None 2 50 (1 # 2)%Q
  = inr (client (Some ["find"; "faq"]) 2 50 (1 # 2)%Q) ∧
  ((truthy None = true →
    keywords (client (Some ["find"; "faq"]) 2 50 (1 # 2)%Q) = None) ∧
   (truthy None = false →
    keywords (client (Some ["find"; "faq"]) 2 50 (1 # 2)%Q)
    = Some (extract_keywords "find the FAQ" 5)) ∧
   (truthy None = false → extract_keywords "find the FAQ" 5 = [] →
    ∀ content,
      compute_similarity content
        (instructions (client (Some ["find"; "faq"]) 2 50 (1 # 2)%Q))
        (keywords (client (Some ["find"; "faq"]) 2 50 (1 # 2)%Q))
        (similarity_threshold (client (Some ["find"; "faq"]) 2 50 (1 # 2)%Q)) = true ↔
      ∃ sim, similarity_of content "find the FAQ" = Some sim ∧
             score_gt sim (1 # 2)%Q = true)).
Proof.
  assert (Hi : __init__ (Some "secret") "secret" "find the FAQ" None 2 50 (1 # 2)%Q
               = inr (client (Some ["find"; "faq"]) 2 50 (1 # 2)%Q)) by reflexivity.
  split; [exact Hi|].
  exact (@constructor_keywords libs (Some "secret") "secret" "find the FAQ" None
           2 50 (1 # 2)%Q _ Hi).
Defined.

Lemma extract_links_exact_witness :
  _extract_links seed_page seed = inr ["http://site/a"; "http://site/b"] ∧
  ∃ sp, html_parser seed_page = Some sp ∧
        NoDup ["http://site/a"; "http://site/b"] ∧
        (∀ u, u ∈ ["http://site/a"; "http://site/b"] ↔
              ∃ href, href ∈ find_all_a_href sp ∧ kept_link seed href u) ∧
        (∀ u, u ∈ ["http://site/a"; "http://site/b"] →
              ∃ scheme, urlparse_scheme u = Some scheme ∧
                        scheme ∈ ["http"; "https"]) ∧
        (∀ href scheme, href ∈ find_all_a_href sp →
              urlparse_scheme href = Some scheme → scheme ∈ ["http"; "https"] →
              href ∈ ["http://site/a"; "http://site/b"]).
Proof.
  assert (Hl : _extract_links seed_page seed
               = inr ["http://site/a"; "http://site/b"]) by (vm_compute; reflexivity).
  split; [exact Hl|].
  exact (@extract_links_exact libs seed_page seed _ Hl).
Defined.

Lemma session_only_grows_witness :
  rtc (step faq_client) (scrape_init seed) navigation_final ∧
  (visited_urls (scrape_init seed) ⊆ visited_urls navigation_final ∧
   results (scrape_init seed) `prefix_of` results navigation_final ∧
   events (scrape_init seed) `prefix_of` events navigation_final).
Proof.
  split; [exact navigation_final_reachable|].
  exact (@session_only_grows libs faq_client _ _ navigation_final_reachable).
Defined.

Lemma results_are_relevant_witness :
  reachable faq_client seed navigation_final ∧
  ("http://site/a", "All FAQ answers") ∈ results navigation_final ∧
  ("All FAQ answers" ≠ "" ∧
   compute_similarity "All FAQ answers" (instructions faq_client)
     (keywords faq_client) (similarity_threshold faq_client) = true ∧
   "http://site/a" ∈ visited_urls navigation_final ∧
   ∃ d, ("http://site/a", d) ∈ rendered (events navigation_final)).
Proof.
  assert (Hin : ("http://site/a", "All FAQ answers") ∈ results navigation_final).
  { apply list_elem_of_In. vm_compute. right. by left. }
  split; [exact navigation_final_reachable|]. split; [exact Hin|].
  exact (@results_are_relevant libs faq_client seed navigation_final _ _
           navigation_final_reachable Hin).
Defined.

Lemma render_budget_witness :
  reachable faq_client seed navigation_final ∧
  (NoDup (rendered (events navigation_final)).*1 ∧
   length (rendered (events navigation_final)) = size (visited_urls navigation_final) ∧
   (0 ≤ max_pages faq_client →
    Z.of_nat (length (rendered (events navigation_final))) ≤ max_pages faq_client)).
Proof.
  split; [exact navigation_final_reachable|].
  exact (@render_budget libs faq_client seed navigation_final
           navigation_final_reachable).
Defined.

Lemma degenerate_bounds_witness :
  (max_depth (client (Some ["FAQ"]) (-1) 1 (3 # 10)%Q) < 0 ∨
   max_pages (client (Some ["FAQ"]) (-1) 1 (3 # 10)%Q) ≤ 0) ∧
  ((∀ s, reachable (client (Some ["FAQ"]) (-1) 1 (3 # 10)%Q) seed s →
         events s = [] ∧ results s = [] ∧ visited_urls s = ∅ ∧
         length (tasks s) = 1%nat) ∧
   (∀ pb, ∃ s', resume (client (Some ["FAQ"]) (-1) 1 (3 # 10)%Q) 0 pb (scrape_init seed)
                = Some s' ∧
                run_result s' = Some (inr []))).
Proof.
  assert (Hbad : max_depth (client (Some ["FAQ"]) (-1) 1 (3 # 10)%Q) < 0 ∨
                 max_pages (client (Some ["FAQ"]) (-1) 1 (3 # 10)%Q) ≤ 0)
    by (left; simpl; lia).
  split; [exact Hbad|].
  exact (@degenerate_bounds_crawl_nothing libs _ seed Hbad).
Defined.



End MoreWitnesses.

Section LenientWitness.


End LenientWitness.

(** ** What a returned crawl has behind it *)

Section Completion.
Context `{Libraries}.
Variable self : RufusClient.

Lemma all_returned_kid (ts : list task) (kids : list nat) (j : nat) (t : task) :
  all_returned ts kids = true → j ∈ kids → ts !! j = Some t →
  t_pc t = Returned.
Proof.
  unfold all_returned. rewrite forallb_forall.
  intros Hall Hj%list_elem_of_In Ht. specialize (Hall j Hj).
  unfold kid_pc in Hall. rewrite Ht in Hall. by destruct (t_pc t).
Qed.

Lemma parent_update (s s' : session) (i : nat) (t : task) (p : pc)
    (children : list (string * Z)) :
  parent_inv s →
  tasks s !! i = Some t → finished (t_pc t) = false →
  tasks s' = <[i := with_pc t p]> (tasks s) ++ (new_task <$> children) →
  (children ≠ [] → p = AwaitGather (seq (length (tasks s)) (length children))) →
  (∀ kids, t_pc t = AwaitGather kids →
     (∃ e, p = Raised e) ∨ (p = Returned ∧ all_returned (tasks s) kids = true)) →
  parent_inv s'.
Proof.
  intros Hinv Hi Hrun Hts Hspawn Hgather j tj Hj0 Hj.
  assert (Hilen : (i < length (tasks s))%nat) by by eapply lookup_lt_Some.
  assert (Hkeep : ∀ a ta, a ≠ i → tasks s !! a = Some ta → tasks s' !! a = Some ta).
  { intros a ta Ha Hta. rewrite Hts. apply lookup_app_Some. left.
    by rewrite list_lookup_insert_ne. }
  assert (Hself : tasks s' !! i = Some (with_pc t p)).
  { rewrite Hts. apply lookup_app_Some. left. by apply list_lookup_insert_eq. }
  assert (Hold : ∀ told, tasks s !! j = Some told →
            (j = i ∨ t_pc tj = t_pc told) →
            ∃ a pa, (a < j)%nat ∧ tasks s' !! a = Some pa ∧
              ((∃ kids, t_pc pa = AwaitGather kids ∧ j ∈ kids) ∨
               (∃ e, t_pc pa = Raised e) ∨
               (t_pc pa = Returned ∧ t_pc tj = Returned))).
  { intros told Htold Hsame.
    destruct (Hinv j told Hj0 Htold) as (a & pa & Haj & Hpa & Hrel).
    destruct (decide (a = i)) as [-> | Hai].
    - assert (pa = t) as -> by congruence.
      exists i, (with_pc t p). split; [done|]. split; [done|]. simpl.
      destruct Hrel as [(kids & Hk & Hin) | [(e & He) | [Hret _]]].
      + destruct (Hgather kids Hk) as [(e & ->) | [-> Hall]].
        * right. left. by exists e.
        * right. right. split; [done|].
          destruct Hsame as [-> | ->]; [lia|].
          by eapply all_returned_kid.
      + by rewrite He in Hrun.
      + by rewrite Hret in Hrun.
    - exists a, pa. split; [done|]. split; [by apply Hkeep|].
      destruct Hrel as [? | [? | [Hret Htj]]]; [by left | by right; left |].
      right. right. split; [done|].
      destruct Hsame as [-> | ->]; [|done].
      assert (told = t) as -> by congruence. by rewrite Htj in Hrun. }
  rewrite Hts in Hj.
  destruct (lookup_updated _ _ _ _ _ _ _ Hi Hj)
    as [[-> ->] | [[Hne Hjold] | (c & Hc & -> & Hlen)]].
  - apply (Hold t); [done | by left].
  - apply (Hold tj); [done | by right].
  - exists i, (with_pc t p). split; [lia|]. split; [done|]. left.
    assert (Hne : children ≠ []) by (by intros ->; apply elem_of_nil in Hc).
    rewrite (Hspawn Hne). simpl. eexists. split; [done|].
    apply elem_of_seq. split; [done|].
    apply lookup_lt_Some in Hj.
    by rewrite length_app, length_insert, length_fmap in Hj.
Qed.

Lemma parent_resume (s s' : session) (i : nat) (pb : page_behaviour) :
  parent_inv s → resume self i pb s = Some s' → parent_inv s'.
Proof.
  intros Hinv. unfold resume.
  destruct (tasks s !! i) as [t|] eqn:Hi; [|done].
  destruct (t_pc t) eqn:Hpc; try done.
  - intros [= <-]. unfold crawl_enter.
    destruct (crawl_guard _ _ _ _);
      (eapply (parent_update s _ i t _ []);
       [done | done | by rewrite Hpc | simpl; by rewrite app_nil_r | done
       | intros kids; by rewrite Hpc]).
  - intros [= <-]. unfold crawl_rendered.
    destruct (_render_page (browser s) pb) as [e | html];
      (eapply (parent_update s _ i t _ []);
       [done | done | by rewrite Hpc | simpl; by rewrite app_nil_r | done
       | intros kids; by rewrite Hpc]).
  - intros [= <-]. unfold crawl_slept.
    set (children := spawn_loop self (visited_urls s) (t_depth t) links).
    match goal with |- context [with_pc t ?p] => set (p' := p) end.
    eapply (parent_update s _ i t p' children);
      [done | done | by rewrite Hpc | done | | intros kids; by rewrite Hpc].
    unfold p'. by destruct children.
  - unfold crawl_gathered.
    destruct (first_raised (tasks s) kids) as [e|] eqn:Hraised.
    + intros [= <-].
      eapply (parent_update s _ i t _ []);
        [done | done | by rewrite Hpc | simpl; by rewrite app_nil_r | done |].
      intros kids' _. left. by eexists.
    + destruct (all_returned (tasks s) kids) eqn:Hall; [|done]. intros [= <-].
      eapply (parent_update s _ i t _ []);
        [done | done | by rewrite Hpc | simpl; by rewrite app_nil_r | done |].
      intros kids' Hk. right. split; [done|]. congruence.
Qed.

Lemma reachable_parent (base_url : string) (s : session) :
  reachable self base_url s → parent_inv s.
Proof.
  unfold reachable. revert s. apply rtc_ind_r.
  - intros [|j] t Hj; [lia | done].
  - intros s s' _ [i [pb Hstep]] IH. by eapply parent_resume.
Qed.

Lemma returned_root_all_returned (s : session) (t0 : task) :
  parent_inv s → tasks s !! 0%nat = Some t0 → t_pc t0 = Returned →
  ∀ j t, tasks s !! j = Some t → t_pc t = Returned.
Proof.
  intros Hinv H0 Hret j. induction (lt_wf j) as [j _ IH]. intros t Hj.
  destruct j as [|j]; [congruence|].
  destruct (Hinv (S j) t ltac:(lia) Hj) as (a & pa & Ha & Hpa & Hrel).
  pose proof (IH a Ha pa Hpa) as Hparent.
  destruct Hrel as [(kids & Hk & _) | [(e & He) | [_ Ht]]]; congruence.
Qed.

(** X16: [run] returns a list only when every node of the crawl has
    returned: then no task is still pending or waiting and none has
    raised. So an exception in any node, at any depth, leaves [run] no
    way to end but by raising. *)
Theorem run_returns_when_all_done (base_url : string) (s : session) :
  reachable self base_url s →
  (∀ res, run_result s = Some (inr res) →
          res = results s ∧ ∀ t, t ∈ tasks s → t_pc t = Returned) ∧
  (∀ t e out, t ∈ tasks s → t_pc t = Raised e → run_result s = Some out →
              ∃ e', out = inl e').
Proof.
  intros Hr. pose proof (reachable_parent _ _ Hr) as Hinv.
  assert (Hall : ∀ res, run_result s = Some (inr res) →
            res = results s ∧ ∀ t, t ∈ tasks s → t_pc t = Returned).
  { intros res. unfold run_result.
    destruct (tasks s !! 0%nat) as [t0|] eqn:H0; [|done].
    destruct (t_pc t0) eqn:Hpc; try done. intros [= <-]. split; [done|].
    intros t [j Hj]%list_elem_of_lookup.
    by eapply returned_root_all_returned. }
  split; [exact Hall|].
  intros t e [e' | res] Hin Hraised Hout; [by exists e'|].
  destruct (Hall res Hout) as [_ Hret]. rewrite (Hret t Hin) in Hraised. done.
Qed.

End Completion.

Section CompletionWitness.
Import Toy.

Lemma run_returns_when_all_done_witness :
  reachable faq_client seed navigation_final ∧
  ((∀ res, run_result navigation_final = Some (inr res) →
           res = results navigation_final ∧
           ∀ t, t ∈ tasks navigation_final → t_pc t = Returned) ∧
   (∀ t e out, t ∈ tasks navigation_final → t_pc t = Raised e →
               run_result navigation_final = Some out → ∃ e', out = inl e')).
Proof.
  split; [exact navigation_final_reachable|].
  exact (@run_returns_when_all_done libs faq_client seed navigation_final
           navigation_final_reachable).
Defined.

End CompletionWitness.
